(** * The filter scheduler of nova/scheduler/filter_scheduler.py

    A shallow embedding of [FilterScheduler.select_destinations] and
    [FilterScheduler._schedule], with the host states kept in an explicit
    store so that the aliasing between the host list, the weighed hosts and
    the selected hosts is the one of the Python objects. *)

From stdpp Require Import base numbers list strings gmap.

Local Open Scope Z_scope.

(** ** Data model *)

(** A reference to a [HostState] object (its identity). *)
Definition HostRef := nat.

(** The [limits] attribute, opaque to the scheduler. *)
Definition Limits := list (string * Z).

(** Modelled from the spec: the class [HostState] lives in
    nova/scheduler/host_manager.py, which is not part of this file.  The
    attributes [host], [nodename], [limits] and [updated] are the ones the
    scheduler reads or writes; [capacity] stands for the available capacity
    that [consume_from_request] debits.  [updated = None] is Python's
    [None]. *)
Record HostState := mkHostState {
  host : string;
  nodename : string;
  limits : Limits;
  updated : option Z;
  capacity : Z
}.

(** [nova.weights.WeighedObject]: a host state reference and its weight.
    The scheduler never reads the weight. *)
Record WeighedHost := mkWeighedHost {
  obj : HostRef;
  weight : Z
}.

(** Modelled from the spec: [objects.RequestSpec] is not part of this file.
    [num_instances] is a Python integer; [flavor] is the resource footprint
    of one instance; [instance_group] holds the hosts of the instance group
    when the request has one. *)
Record RequestSpec := mkRequestSpec {
  num_instances : Z;
  flavor : Z;
  instance_group : option (gset string)
}.

(** The part of the [filter_properties] dictionary [_schedule] itself reads
    and writes, next to the request it was built from. *)
Record FilterProperties := mkFilterProperties {
  fp_request_spec : RequestSpec;
  group_updated : bool;
  group_hosts : gset string
}.

(** Modelled from the spec: [RequestSpec.to_legacy_filter_properties_dict]
    is not part of this file; with an instance group, [group_updated] is
    [True] and [group_hosts] is the set of the group's hosts. *)
Definition to_legacy_filter_properties_dict (spec_obj : RequestSpec)
  : FilterProperties :=
  match instance_group spec_obj with
  | Some hs => mkFilterProperties spec_obj true hs
  | None => mkFilterProperties spec_obj false ∅
  end.

(** One entry of the list [select_destinations] returns:
    [dict(host=..., nodename=..., limits=...)]. *)
Record Destination := mkDestination {
  dest_host : string;
  dest_nodename : string;
  dest_limits : Limits
}.

(** A call of [notifier.info]: the event type and the request in its
    payload. *)
Record Notification := mkNotification {
  event_type : string;
  payload : RequestSpec
}.

(** [CONF]: the registered option. *)
Record Config := mkConfig {
  scheduler_host_subset_size : Z
}.

(** The exceptions the scheduler raises or lets through. *)
Inductive exn :=
| NoValidHost (reason : string)
| IndexError.

Inductive outcome (A : Type) :=
| Returns (a : A)
| Raises (e : exn).
Arguments Returns {A} a.
Arguments Raises {A} e.

(** ** The store of host states *)

(** Every reference denotes a live object, so the store is total. *)
Definition Heap := HostRef -> HostState.

Definition heap_alter (f : HostState -> HostState) (r : HostRef) (h : Heap)
  : Heap :=
  fun r' => if decide (r' = r) then f (h r') else h r'.

(** [hs.updated = v] *)
Definition set_updated (v : option Z) (hs : HostState) : HostState :=
  mkHostState (host hs) (nodename hs) (limits hs) v (capacity hs).

(** ** Python primitives *)

(** [range(n)] *)
Definition range (n : Z) : list Z := Z.of_nat <$> seq 0 (Z.to_nat n).

(** [l[0:stop]], with Python's reading of a negative [stop]. *)
Definition slice_to {A} (l : list A) (stop : Z) : list A :=
  if stop <? 0
  then take (Z.to_nat (Z.of_nat (length l) + stop)) l
  else take (Z.to_nat stop) l.

(** ** External collaborators *)

(** The host manager: the host-state provider, the filter chain and the
    weigher chain.  The chains read the host states and the filter
    properties. *)
Class HostManager := {
  get_all_host_states : Heap -> list HostRef;
  get_filtered_hosts :
    Heap -> list HostRef -> FilterProperties -> Z -> list HostRef;
  get_weighed_hosts :
    Heap -> list HostRef -> FilterProperties -> list WeighedHost
}.

(** The consumption model, [HostState.consume_from_request]. *)
Class Consumption := {
  consume_from_request : HostState -> RequestSpec -> HostState
}.

(** The random source behind [random.choice]: [randbelow g n] is
    [int(random() * n)] with the generator in state [g], and the state after
    the draw.  [random()] lies in [0, 1), hence the law. *)
Class RandomSource (G : Type) := {
  randbelow : G -> nat -> nat * G;
  randbelow_lt : forall g n, (0 < n)%nat -> (fst (randbelow g n) < n)%nat
}.

(** ** The scheduler *)

Section FilterScheduler.

Context {G : Type} {RS : RandomSource G} {HM : HostManager} {CO : Consumption}.

(** What one call works on: the host states, the notifications sent so far
    and the state of the random generator. *)
Record World := mkWorld {
  heap : Heap;
  notifications : list Notification;
  rng : G
}.

(** [random.choice(seq)], that is [seq[int(random() * len(seq))]]. *)
Definition random_choice {A} (g : G) (seq : list A) : outcome A * G :=
  let '(i, g') := randbelow g (length seq) in
  match seq !! i with
  | Some x => (Returns x, g')
  | None => (Raises IndexError, g')
  end.

(** Lines 158-162: the subset size after the two adjustments. *)
Definition effective_subset_size (configured : Z) (weighed_hosts : list WeighedHost)
  : Z :=
  let size := configured in
  let size :=
    if size >? Z.of_nat (length weighed_hosts)
    then Z.of_nat (length weighed_hosts) else size in
  let size := if size <? 1 then 1 else size in
  size.

(** Lines 158-165: the pick among the best hosts. *)
Definition choose_host (conf : Config) (g : G) (weighed_hosts : list WeighedHost)
  : outcome WeighedHost * G :=
  random_choice g
    (slice_to weighed_hosts
       (effective_subset_size (scheduler_host_subset_size conf) weighed_hosts)).

(** The variables of the loop of [_schedule]. *)
Record LoopState := mkLoopState {
  hosts : list HostRef;
  selected_hosts : list WeighedHost;
  filter_properties : FilterProperties;
  ls_heap : Heap;
  ls_rng : G
}.

(** How one round of the loop ends. *)
Inductive Step :=
| Continue (s : LoopState)
| Break (s : LoopState)
| Abort (e : exn) (s : LoopState).

(** Lines 172-173. *)
Definition add_group_host (fp : FilterProperties) (h : string)
  : FilterProperties :=
  if group_updated fp
  then mkFilterProperties (fp_request_spec fp) (group_updated fp)
         ({[ h ]} ∪ group_hosts fp)
  else fp.

(** Lines 144-173: the body of the loop, for the round [num]. *)
Definition schedule_round (conf : Config) (spec_obj : RequestSpec) (num : Z)
  (s : LoopState) : Step :=
  let hosts' :=
    get_filtered_hosts (ls_heap s) (hosts s) (filter_properties s) num in
  match hosts' with
  | [] =>
      Break (mkLoopState hosts' (selected_hosts s) (filter_properties s)
               (ls_heap s) (ls_rng s))
  | _ :: _ =>
      let weighed_hosts :=
        get_weighed_hosts (ls_heap s) hosts' (filter_properties s) in
      match choose_host conf (ls_rng s) weighed_hosts with
      | (Raises e, g') =>
          Abort e (mkLoopState hosts' (selected_hosts s)
                     (filter_properties s) (ls_heap s) g')
      | (Returns chosen_host, g') =>
          let heap' :=
            heap_alter (fun hs => consume_from_request hs spec_obj)
              (obj chosen_host) (ls_heap s) in
          Continue
            (mkLoopState hosts' (selected_hosts s ++ [chosen_host])
               (add_group_host (filter_properties s)
                  (host (heap' (obj chosen_host))))
               heap' g')
      end
  end.

(** Line 143: [for num in range(num_instances)], over the rounds [nums]
    still to run. *)
Fixpoint schedule_loop (conf : Config) (spec_obj : RequestSpec)
  (nums : list Z) (s : LoopState) : option exn * LoopState :=
  match nums with
  | [] => (None, s)
  | num :: rest =>
      match schedule_round conf spec_obj num s with
      | Continue s' => schedule_loop conf spec_obj rest s'
      | Break s' => (None, s')
      | Abort e s' => (Some e, s')
      end
  end.

(** Lines 176-178. *)
Definition _get_all_host_states (h : Heap) : list HostRef :=
  get_all_host_states h.

(** The loop state on entry, lines 126-142. *)
Definition initial_state (w : World) (spec_obj : RequestSpec) : LoopState :=
  mkLoopState (_get_all_host_states (heap w)) []
    (to_legacy_filter_properties_dict spec_obj) (heap w) (rng w).

(** The loop of [_schedule] run to its end: the exception that left it, if
    any, and the loop variables at that point. *)
Definition run_schedule (conf : Config) (w : World) (spec_obj : RequestSpec)
  : option exn * LoopState :=
  schedule_loop conf spec_obj (range (num_instances spec_obj))
    (initial_state w spec_obj).

(** Lines 110-174: [_schedule] returns [selected_hosts], or raises.  The
    elevated context and the configuration options only travel on to the
    host manager, and the log lines have no effect. *)
Definition _schedule (conf : Config) (w : World) (spec_obj : RequestSpec)
  : outcome (list WeighedHost) * World :=
  let '(e, s) := run_schedule conf w spec_obj in
  let w' := mkWorld (ls_heap s) (notifications w) (ls_rng s) in
  match e with
  | None => (Returns (selected_hosts s), w')
  | Some e => (Raises e, w')
  end.

(** [notifier.info(context, event, dict(request_spec=...))] *)
Definition notify (event : string) (spec_obj : RequestSpec) (w : World)
  : World :=
  mkWorld (heap w) (notifications w ++ [mkNotification event spec_obj])
    (rng w).

(** Lines 84-85: [for host in selected_hosts: host.obj.updated = None]. *)
Definition invalidate (selected : list WeighedHost) (h : Heap) : Heap :=
  foldl (fun h host => heap_alter (set_updated None) (obj host) h) h selected.

(** Lines 98-99. *)
Definition destination_of (h : Heap) (host0 : WeighedHost) : Destination :=
  mkDestination (host (h (obj host0))) (nodename (h (obj host0)))
    (limits (h (obj host0))).

(** Lines 62-104, from the [RequestSpec] object that [from_primitives]
    builds. *)
Definition select_destinations (conf : Config) (w : World)
  (spec_obj : RequestSpec) : outcome (list Destination) * World :=
  let w := notify "scheduler.select_destinations.start" spec_obj w in
  let n := num_instances spec_obj in
  match _schedule conf w spec_obj with
  | (Raises e, w) => (Raises e, w)
  | (Returns selected, w) =>
      if Z.of_nat (length selected) <? n
      then
        (Raises (NoValidHost "There are not enough hosts available."),
         mkWorld (invalidate selected (heap w)) (notifications w) (rng w))
      else
        let dests := destination_of (heap w) <$> selected in
        (Returns dests,
         notify "scheduler.select_destinations.end" spec_obj w)
  end.

End FilterScheduler.

(** ** Observations of a run *)

Section Observations.

Context {G : Type} {RS : RandomSource G} {HM : HostManager} {CO : Consumption}.

(** The loop variables a round leaves behind, however it ends. *)
Definition step_state (st : @Step G) : @LoopState G :=
  match st with
  | Continue s => s
  | Break s => s
  | Abort _ s => s
  end.

(** The loop variables after the rounds [nums], when each of them ran to
    its end (no [break], no exception). *)
Fixpoint after_rounds (conf : Config) (spec_obj : RequestSpec)
  (nums : list Z) (s : LoopState) : option LoopState :=
  match nums with
  | [] => Some s
  | num :: rest =>
      match schedule_round conf spec_obj num s with
      | Continue s' => after_rounds conf spec_obj rest s'
      | _ => None
      end
  end.

(** The filtered host list of every round the loop entered, in order: the
    value of [hosts] after line 145 of that round. *)
Fixpoint filtered_per_round (conf : Config) (spec_obj : RequestSpec)
  (nums : list Z) (s : LoopState) : list (list HostRef) :=
  match nums with
  | [] => []
  | num :: rest =>
      match schedule_round conf spec_obj num s with
      | Continue s' => hosts s' :: filtered_per_round conf spec_obj rest s'
      | Break s' => [hosts s']
      | Abort _ s' => [hosts s']
      end
  end.

(** The filtered host lists of a call of [_schedule]. *)
Definition filtered_lists (conf : Config) (w : World) (spec_obj : RequestSpec)
  : list (list HostRef) :=
  filtered_per_round conf spec_obj (range (num_instances spec_obj))
    (initial_state w spec_obj).

(** Two loop states that differ at most in the state of the random
    generator. *)
Definition same_but_rng (s1 s2 : @LoopState G) : Prop :=
  hosts s1 = hosts s2
  /\ selected_hosts s1 = selected_hosts s2
  /\ filter_properties s1 = filter_properties s2
  /\ ls_heap s1 = ls_heap s2.

(** The weigher chain returns at least one host for a non-empty list. *)
Definition weigher_nonempty : Prop :=
  forall h l fp, l <> [] -> get_weighed_hosts h l fp <> [].

(** The filter chain returns a part of its input list. *)
Definition filter_narrows : Prop :=
  forall h l fp index, get_filtered_hosts h l fp index ⊆+ l.

(** Every host passes the filter chain in every round. *)
Definition all_hosts_pass : Prop :=
  forall h l fp index, get_filtered_hosts h l fp index = l.

End Observations.

(** The clamp of the spec: [x] brought into [lo..hi], the lower bound
    winning when the range is empty. *)
Definition clamp (x lo hi : Z) : Z := Z.max lo (Z.min x hi).

(** The weigher chain returns weighed hosts of the list it is given. *)
Definition weigher_sound {HM : HostManager} : Prop :=
  forall h l fp x, x ∈ get_weighed_hosts h l fp -> obj x ∈ l.

(** How many entries of [selected] refer to the host state [r]. *)
Definition times_selected (r : HostRef) (selected : list WeighedHost) : nat :=
  length (filter (fun x => obj x = r) selected).

(** The [host] attribute of the selected hosts, read in the store [h]. *)
Definition selected_names (h : Heap) (selected : list WeighedHost)
  : gset string :=
  list_to_set ((fun x => host (h (obj x))) <$> selected).

(** ** A small fleet to run the scheduler on *)

(** Three hosts, one unit of capacity each. *)
Definition fleet_heap : Heap := fun r =>
  mkHostState
    (match r with O => "host1" | 1%nat => "host2" | _ => "host3" end)
    (match r with O => "node1" | 1%nat => "node2" | _ => "node3" end)
    [] (Some 1700000000) 1.

(** A host passes when it has room for the flavor. *)
Definition has_room (h : Heap) (fp : FilterProperties) (r : HostRef) : bool :=
  flavor (fp_request_spec fp) <=? capacity (h r).

(** Filters on capacity; weighs in the order of the list. *)
Definition capacity_manager : HostManager := {|
  get_all_host_states := fun _ => [0; 1; 2]%nat;
  get_filtered_hosts := fun h l fp _ => List.filter (has_room h fp) l;
  get_weighed_hosts := fun _ l _ => (fun r => mkWeighedHost r 0) <$> l
|}.

(** Lets every host pass and keeps the order of the list, so that the
    first host stays the best one whatever it has consumed. *)
Definition all_pass_manager : HostManager := {|
  get_all_host_states := fun _ => [0; 1; 2]%nat;
  get_filtered_hosts := fun _ l _ _ => l;
  get_weighed_hosts := fun _ l _ => (fun r => mkWeighedHost r 0) <$> l
|}.

(** Lets every host pass; its weigher returns no host at all. *)
Definition empty_weigher_manager : HostManager := {|
  get_all_host_states := fun _ => [0; 1; 2]%nat;
  get_filtered_hosts := fun _ l _ _ => l;
  get_weighed_hosts := fun _ _ _ => []
|}.

(** Debits the flavor from the capacity. *)
Definition debit : Consumption := {|
  consume_from_request := fun hs spec_obj =>
    mkHostState (host hs) (nodename hs) (limits hs) (updated hs)
      (capacity hs - flavor spec_obj)
|}.

(** A linear congruential generator; the draw below [n] is the state
    modulo [n]. *)
Definition lcg_draw (g n : nat) : nat * nat :=
  ((g mod n)%nat, ((5 * g + 3) mod 16)%nat).

Definition lcg : RandomSource nat := {|
  randbelow := lcg_draw;
  randbelow_lt := fun g n Hn =>
    Nat.mod_upper_bound g n (proj2 (Nat.neq_0_lt_0 n) Hn)
|}.

Definition fleet_world (seed : nat) : World := mkWorld fleet_heap [] seed.

Definition batch (n : Z) : RequestSpec := mkRequestSpec n 1 None.

(** Lets every host pass; its weigher keeps the order of the list as long
    as the first host of the fleet has room, and returns no host after
    that. *)
Definition exhausted_weigher_manager : HostManager := {|
  get_all_host_states := fun _ => [0; 1; 2]%nat;
  get_filtered_hosts := fun _ l _ _ => l;
  get_weighed_hosts := fun h l fp =>
    if has_room h fp 0%nat then (fun r => mkWeighedHost r 0) <$> l else []
|}.

(** A batch for an instance group that already has an instance on
    [host9]. *)
Definition group_batch (n : Z) : RequestSpec :=
  mkRequestSpec n 1 (Some {[ "host9" ]}).

(** * Properties of the scheduler *)

Section Properties.

Context {G : Type} {RS : RandomSource G} {HM : HostManager} {CO : Consumption}.

Implicit Types (conf : Config) (spec_obj : RequestSpec) (w : @World G).
Implicit Types (s : @LoopState G) (wh : list WeighedHost) (g : G).
Implicit Types (nums : list Z).

(** ** The subset pick *)

Lemma effective_subset_size_max_min c wh :
  effective_subset_size c wh = Z.max 1 (Z.min c (Z.of_nat (length wh))).
Proof.
  unfold effective_subset_size. rewrite Z.gtb_ltb.
  destruct (Z.ltb_spec (Z.of_nat (length wh)) c) as [Hgt|Hle].
  - destruct (Z.ltb_spec (Z.of_nat (length wh)) 1); lia.
  - destruct (Z.ltb_spec c 1); lia.
Qed.

Lemma effective_subset_size_pos c wh : 1 <= effective_subset_size c wh.
Proof. rewrite effective_subset_size_max_min. lia. Qed.

Lemma slice_to_effective c wh :
  slice_to wh (effective_subset_size c wh)
  = take (Z.to_nat (effective_subset_size c wh)) wh.
Proof.
  unfold slice_to. pose proof (effective_subset_size_pos c wh) as Hpos.
  destruct (Z.ltb_spec (effective_subset_size c wh) 0); [lia|reflexivity].
Qed.

Lemma choose_host_elem conf g wh x g' :
  choose_host conf g wh = (Returns x, g') ->
  x ∈ take (Z.to_nat (effective_subset_size (scheduler_host_subset_size conf) wh)) wh.
Proof.
  unfold choose_host, random_choice. rewrite slice_to_effective.
  destruct (randbelow g _) as [i g''].
  destruct (take _ wh !! i) as [y|] eqn:Hi; intros Heq; [|discriminate].
  injection Heq as -> ->. eapply list_elem_of_lookup_2, Hi.
Qed.

Lemma choose_host_returns conf g wh :
  wh <> [] -> exists x g', choose_host conf g wh = (Returns x, g').
Proof.
  intros Hne. unfold choose_host, random_choice. rewrite slice_to_effective.
  set (k := Z.to_nat _). set (top := take k wh).
  assert (0 < length top)%nat as Htop.
  { subst top. rewrite length_take.
    pose proof (effective_subset_size_pos (scheduler_host_subset_size conf) wh).
    destruct wh; [done|]. simpl. subst k. lia. }
  pose proof (randbelow_lt g _ Htop) as Hlt.
  destruct (randbelow g (length top)) as [i g'']. simpl in Hlt.
  destruct (lookup_lt_is_Some_2 top i Hlt) as [x Hx].
  rewrite Hx. eauto.
Qed.

Lemma choose_host_exn conf g wh e g' :
  choose_host conf g wh = (Raises e, g') -> e = IndexError /\ wh = [].
Proof.
  intros Hc. destruct wh as [|x wh'].
  - split; [|done]. revert Hc. unfold choose_host, random_choice.
    destruct (randbelow g _) as [i g'']. destruct (_ !! i); congruence.
  - destruct (choose_host_returns conf g (x :: wh')) as (y & g'' & Hy); [done|].
    congruence.
Qed.

(** ** One round *)

Lemma schedule_round_hosts conf spec_obj num s :
  hosts (step_state (schedule_round conf spec_obj num s))
  = get_filtered_hosts (ls_heap s) (hosts s) (filter_properties s) num.
Proof.
  unfold schedule_round.
  destruct (get_filtered_hosts _ _ _ _) as [|r l]; [done|].
  destruct (choose_host _ _ _) as [[x|e] g']; done.
Qed.

Lemma schedule_round_break conf spec_obj num s :
  get_filtered_hosts (ls_heap s) (hosts s) (filter_properties s) num = [] ->
  schedule_round conf spec_obj num s
  = Break (mkLoopState [] (selected_hosts s) (filter_properties s)
             (ls_heap s) (ls_rng s)).
Proof. intros Hf. unfold schedule_round. by rewrite Hf. Qed.

Lemma schedule_round_continue conf spec_obj num s s' :
  schedule_round conf spec_obj num s = Continue s' ->
  exists chosen_host,
    selected_hosts s' = selected_hosts s ++ [chosen_host]
    /\ ls_heap s'
       = heap_alter (fun hs => consume_from_request hs spec_obj)
           (obj chosen_host) (ls_heap s)
    /\ hosts s' <> [].
Proof.
  unfold schedule_round.
  destruct (get_filtered_hosts _ _ _ _) as [|r l]; [done|].
  destruct (choose_host _ _ _) as [[x|e] g']; [|done].
  intros [= <-]. exists x. done.
Qed.

Lemma schedule_round_pick conf spec_obj num s s' :
  schedule_round conf spec_obj num s = Continue s' ->
  exists chosen_host,
    choose_host conf (ls_rng s)
      (get_weighed_hosts (ls_heap s) (hosts s') (filter_properties s))
    = (Returns chosen_host, ls_rng s')
    /\ selected_hosts s' = selected_hosts s ++ [chosen_host].
Proof.
  unfold schedule_round.
  destruct (get_filtered_hosts _ _ _ _) as [|r l]; [done|].
  destruct (choose_host _ _ _) as [[x|e] g'] eqn:Hc; [|done].
  intros [= <-]. exists x. simpl. by rewrite Hc.
Qed.

Lemma schedule_round_stop conf spec_obj num s s' :
  schedule_round conf spec_obj num s = Break s' ->
  selected_hosts s' = selected_hosts s /\ ls_heap s' = ls_heap s
  /\ ls_rng s' = ls_rng s.
Proof.
  unfold schedule_round.
  destruct (get_filtered_hosts _ _ _ _) as [|r l].
  - by intros [= <-].
  - destruct (choose_host _ _ _) as [[x|e] g']; done.
Qed.

Lemma schedule_round_abort conf spec_obj num s e s' :
  schedule_round conf spec_obj num s = Abort e s' ->
  e = IndexError
  /\ selected_hosts s' = selected_hosts s /\ ls_heap s' = ls_heap s
  /\ hosts s' <> []
  /\ get_weighed_hosts (ls_heap s) (hosts s') (filter_properties s) = [].
Proof.
  unfold schedule_round.
  destruct (get_filtered_hosts _ _ _ _) as [|r l] eqn:Hf; [done|].
  destruct (choose_host _ _ _) as [[x|e'] g'] eqn:Hc; [done|].
  intros [= <- <-]. apply choose_host_exn in Hc as [-> Hw]. done.
Qed.

(** ** The loop *)

Lemma schedule_loop_length conf spec_obj nums s :
  (length (selected_hosts (schedule_loop conf spec_obj nums s).2)
   <= length (selected_hosts s) + length nums)%nat.
Proof.
  revert s. induction nums as [|num rest IH]; intros s; simpl; [lia|].
  destruct (schedule_round conf spec_obj num s) as [s'|s'|e s'] eqn:Hr.
  - apply schedule_round_continue in Hr as (x & Hsel & _).
    specialize (IH s'). rewrite Hsel, length_app in IH. simpl in IH. lia.
  - apply schedule_round_stop in Hr as (Hsel & _). simpl. rewrite Hsel. lia.
  - apply schedule_round_abort in Hr as (_ & Hsel & _). simpl. rewrite Hsel. lia.
Qed.

Lemma schedule_loop_exn conf spec_obj nums s e :
  (schedule_loop conf spec_obj nums s).1 = Some e ->
  e = IndexError
  /\ exists h l fp, l <> [] /\ get_weighed_hosts h l fp = [].
Proof.
  revert s. induction nums as [|num rest IH]; intros s; simpl; [done|].
  destruct (schedule_round conf spec_obj num s) as [s'|s'|e' s'] eqn:Hr.
  - apply IH.
  - done.
  - apply schedule_round_abort in Hr as (-> & _ & _ & Hne & Hnil).
    simpl. intros [= <-]. eauto 6.
Qed.

Lemma schedule_loop_no_exn conf spec_obj nums s :
  weigher_nonempty -> (schedule_loop conf spec_obj nums s).1 = None.
Proof.
  intros Hw. revert s. induction nums as [|num rest IH]; intros s; simpl; [done|].
  destruct (schedule_round conf spec_obj num s) as [s'|s'|e' s'] eqn:Hr.
  - apply IH.
  - done.
  - apply schedule_round_abort in Hr as (_ & _ & _ & Hne & Hnil).
    by apply Hw in Hnil.
Qed.

Lemma schedule_loop_after conf spec_obj pre rest s0 s :
  after_rounds conf spec_obj pre s0 = Some s ->
  schedule_loop conf spec_obj (pre ++ rest) s0
  = schedule_loop conf spec_obj rest s.
Proof.
  revert s0. induction pre as [|num pre IH]; intros s0; simpl.
  - by intros [= ->].
  - destruct (schedule_round conf spec_obj num s0); [apply IH|done..].
Qed.

Lemma length_range n : length (range n) = Z.to_nat n.
Proof. unfold range. by rewrite length_fmap, length_seq. Qed.

Lemma _schedule_run conf w spec_obj :
  _schedule conf w spec_obj
  = let r := run_schedule conf w spec_obj in
    (match r.1 with
     | None => Returns (selected_hosts r.2)
     | Some e => Raises e
     end,
     mkWorld (ls_heap r.2) (notifications w) (ls_rng r.2)).
Proof.
  unfold _schedule. destruct (run_schedule conf w spec_obj) as [[e|] s]; done.
Qed.

Lemma run_schedule_length conf w spec_obj :
  (length (selected_hosts (run_schedule conf w spec_obj).2)
   <= Z.to_nat (num_instances spec_obj))%nat.
Proof.
  unfold run_schedule.
  pose proof (schedule_loop_length conf spec_obj
                (range (num_instances spec_obj)) (initial_state w spec_obj)) as Hl.
  rewrite length_range in Hl. simpl in Hl. lia.
Qed.

(** ** The claims about the subset pick, the loop and the call *)

Lemma choose_host_below_one c g wh :
  c < 1 -> choose_host (mkConfig c) g wh = choose_host (mkConfig 1) g wh.
Proof.
  intros Hc. unfold choose_host. simpl. do 2 f_equal.
  rewrite !effective_subset_size_max_min. lia.
Qed.

Lemma schedule_round_below_one c spec_obj num s :
  c < 1 ->
  schedule_round (mkConfig c) spec_obj num s
  = schedule_round (mkConfig 1) spec_obj num s.
Proof.
  intros Hc. unfold schedule_round.
  destruct (get_filtered_hosts _ _ _ _); [done|].
  by rewrite choose_host_below_one.
Qed.

Lemma schedule_loop_below_one c spec_obj nums s :
  c < 1 ->
  schedule_loop (mkConfig c) spec_obj nums s
  = schedule_loop (mkConfig 1) spec_obj nums s.
Proof.
  intros Hc. revert s. induction nums as [|num rest IH]; intros s; simpl; [done|].
  rewrite schedule_round_below_one by done.
  destruct (schedule_round _ _ _ _); [apply IH|done..].
Qed.

(** C3: the subset size the pick uses is the configured size clamped into
    [1 .. len(weighed_hosts)]; a configured size below 1 gives the same pick,
    and the same call, as size 1; a size above the length of the weighed
    list gives the same pick as that length; and the chosen host, the one a
    round appends to the selected hosts, is among the first entries of the
    weighed list of that round, as many as the clamped size. *)
Theorem subset_size_is_clamped c wh g :
  effective_subset_size c wh = clamp c 1 (Z.of_nat (length wh))
  /\ (wh <> [] ->
      effective_subset_size c wh = Z.min (Z.of_nat (length wh)) (Z.max 1 c))
  /\ (c < 1 ->
      choose_host (mkConfig c) g wh = choose_host (mkConfig 1) g wh
      /\ forall w spec_obj,
           select_destinations (mkConfig c) w spec_obj
           = select_destinations (mkConfig 1) w spec_obj)
  /\ (Z.of_nat (length wh) < c ->
      choose_host (mkConfig c) g wh
      = choose_host (mkConfig (Z.of_nat (length wh))) g wh)
  /\ (forall x g',
        choose_host (mkConfig c) g wh = (Returns x, g') ->
        x ∈ take (Z.to_nat (clamp c 1 (Z.of_nat (length wh)))) wh)
  /\ (forall spec_obj num s s',
        schedule_round (mkConfig c) spec_obj num s = Continue s' ->
        let weighed_hosts :=
          get_weighed_hosts (ls_heap s) (hosts s') (filter_properties s) in
        exists chosen_host,
          selected_hosts s' = selected_hosts s ++ [chosen_host]
          /\ chosen_host
             ∈ take (Z.to_nat (clamp c 1 (Z.of_nat (length weighed_hosts))))
                 weighed_hosts).
Proof.
  pose proof (effective_subset_size_max_min c wh) as Heff.
  split; [exact Heff|]. split; [|split; [|split; [|split]]].
  - intros Hne. rewrite Heff. destruct wh; [done|]. simpl length. lia.
  - intros Hc. split; [by apply choose_host_below_one|].
    intros w spec_obj. unfold select_destinations, _schedule, run_schedule.
    by rewrite schedule_loop_below_one.
  - intros Hc. unfold choose_host. simpl. do 2 f_equal.
    rewrite !effective_subset_size_max_min. lia.
  - intros x g' Hx. apply choose_host_elem in Hx. simpl in Hx.
    by rewrite Heff in Hx.
  - intros spec_obj num s s' Hr weighed_hosts.
    apply schedule_round_pick in Hr as (x & Hx & Hsel).
    exists x. split; [exact Hsel|].
    apply choose_host_elem in Hx. simpl in Hx.
    by rewrite effective_subset_size_max_min in Hx.
Qed.

Lemma choose_host_empty conf g :
  (choose_host conf g []).1 = Raises IndexError.
Proof.
  unfold choose_host, random_choice. rewrite slice_to_effective, take_nil.
  simpl length. destruct (randbelow g 0) as [i g']. by rewrite lookup_nil.
Qed.

Lemma schedule_round_empty_weighed conf spec_obj num s :
  get_filtered_hosts (ls_heap s) (hosts s) (filter_properties s) num <> [] ->
  get_weighed_hosts (ls_heap s)
    (get_filtered_hosts (ls_heap s) (hosts s) (filter_properties s) num)
    (filter_properties s) = [] ->
  exists s',
    schedule_round conf spec_obj num s = Abort IndexError s'
    /\ selected_hosts s' = selected_hosts s /\ ls_heap s' = ls_heap s.
Proof.
  intros Hne Hnil. unfold schedule_round.
  destruct (get_filtered_hosts _ _ _ _) as [|r l]; [done|].
  rewrite Hnil. pose proof (choose_host_empty conf (ls_rng s)) as He.
  destruct (choose_host conf (ls_rng s) []) as [o g']. simpl in He.
  subst o. eexists. done.
Qed.

Lemma schedule_loop_exn_round conf spec_obj nums s e :
  (schedule_loop conf spec_obj nums s).1 = Some e ->
  exists pre num rest s0,
    nums = pre ++ num :: rest
    /\ after_rounds conf spec_obj pre s = Some s0
    /\ get_filtered_hosts (ls_heap s0) (hosts s0) (filter_properties s0) num
       <> []
    /\ get_weighed_hosts (ls_heap s0)
         (get_filtered_hosts (ls_heap s0) (hosts s0) (filter_properties s0)
            num) (filter_properties s0) = [].
Proof.
  revert s. induction nums as [|num rest IH]; intros s; simpl; [done|].
  pose proof (schedule_round_hosts conf spec_obj num s) as Hh.
  destruct (schedule_round conf spec_obj num s) as [s'|s'|e' s'] eqn:Hr.
  - intros He. destruct (IH s' He) as (pre & num' & rest' & s0 & -> & Hs0 & H).
    exists (num :: pre), num', rest', s0. simpl. rewrite Hr. done.
  - done.
  - intros _. apply schedule_round_abort in Hr as (_ & _ & _ & Hne & Hnil).
    simpl in Hh. rewrite Hh in Hne, Hnil.
    exists [], num, rest, s. done.
Qed.

(** C4, as amended: when the weigher chain returns at least one host for
    every non-empty list, [_schedule] raises nothing and returns a list of
    at most [num_instances] selected hosts; the only exception the loop
    itself can raise is the [IndexError] of [random.choice]; and
    [_schedule] raises it exactly when, after some rounds that ran to their
    end, the weigher chain returns no host for the non-empty filtered list
    of the next round. *)
Theorem schedule_returns_unless_weigher_empty conf w spec_obj :
  (weigher_nonempty ->
   exists selected w',
     _schedule conf w spec_obj = (Returns selected, w')
     /\ (length selected <= Z.to_nat (num_instances spec_obj))%nat)
  /\ (forall e w',
        _schedule conf w spec_obj = (Raises e, w') ->
        e = IndexError
        /\ exists h l fp, l <> [] /\ get_weighed_hosts h l fp = [])
  /\ (forall pre num rest s,
        range (num_instances spec_obj) = pre ++ num :: rest ->
        after_rounds conf spec_obj pre (initial_state w spec_obj) = Some s ->
        get_filtered_hosts (ls_heap s) (hosts s) (filter_properties s) num
        <> [] ->
        get_weighed_hosts (ls_heap s)
          (get_filtered_hosts (ls_heap s) (hosts s) (filter_properties s) num)
          (filter_properties s) = [] ->
        exists w',
          _schedule conf w spec_obj = (Raises IndexError, w')
          /\ heap w' = ls_heap s)
  /\ (forall e w',
        _schedule conf w spec_obj = (Raises e, w') ->
        exists pre num rest s,
          range (num_instances spec_obj) = pre ++ num :: rest
          /\ after_rounds conf spec_obj pre (initial_state w spec_obj) = Some s
          /\ get_filtered_hosts (ls_heap s) (hosts s) (filter_properties s)
               num <> []
          /\ get_weighed_hosts (ls_heap s)
               (get_filtered_hosts (ls_heap s) (hosts s)
                  (filter_properties s) num) (filter_properties s) = []).
Proof.
  split; [|split; [|split]].
  - rewrite _schedule_run. simpl.
    intros Hw. unfold run_schedule at 1. rewrite schedule_loop_no_exn by done.
    eexists _, _. split; [reflexivity|]. apply run_schedule_length.
  - rewrite _schedule_run. simpl. intros e w'.
    destruct (run_schedule conf w spec_obj).1 as [e'|] eqn:He; [|done].
    intros [= <- _]. by apply schedule_loop_exn in He.
  - intros pre num rest s Hrange Hpre Hne Hnil.
    unfold _schedule, run_schedule. rewrite Hrange.
    rewrite (schedule_loop_after _ _ _ _ _ _ Hpre). simpl.
    destruct (schedule_round_empty_weighed conf spec_obj num s Hne Hnil)
      as (s' & -> & _ & Hheap).
    eexists. split; [reflexivity|]. done.
  - rewrite _schedule_run. simpl. intros e w'.
    destruct (run_schedule conf w spec_obj).1 as [e'|] eqn:He; [|done].
    intros _. by apply schedule_loop_exn_round in He.
Qed.

(** C6: the list the loop has selected is never longer than
    [num_instances], whether [_schedule] returns it or not; and when the
    filter chain returns an empty list in a round, [_schedule] returns at
    once, with exactly the hosts the earlier rounds selected and the host
    states as those rounds left them. *)
Theorem selected_bounded_and_stops_on_empty conf w spec_obj :
  0 <= num_instances spec_obj ->
  Z.of_nat (length (selected_hosts (run_schedule conf w spec_obj).2))
  <= num_instances spec_obj
  /\ (forall selected w',
        _schedule conf w spec_obj = (Returns selected, w') ->
        Z.of_nat (length selected) <= num_instances spec_obj)
  /\ (forall pre num rest s,
        range (num_instances spec_obj) = pre ++ num :: rest ->
        after_rounds conf spec_obj pre (initial_state w spec_obj) = Some s ->
        get_filtered_hosts (ls_heap s) (hosts s) (filter_properties s) num = [] ->
        _schedule conf w spec_obj
        = (Returns (selected_hosts s),
           mkWorld (ls_heap s) (notifications w) (ls_rng s))).
Proof.
  intros Hn. pose proof (run_schedule_length conf w spec_obj) as Hlen.
  split; [lia|]. split.
  - intros selected w'. rewrite _schedule_run. simpl.
    destruct (run_schedule conf w spec_obj).1; [done|].
    intros [= <- _]. lia.
  - intros pre num rest s Hrange Hpre Hempty.
    unfold _schedule, run_schedule. rewrite Hrange.
    rewrite (schedule_loop_after _ _ _ _ _ _ Hpre). simpl.
    by rewrite schedule_round_break.
Qed.

(** C1, as amended: for a request of [num_instances >= 0], the caller gets
    the destinations of the selected hosts, in the order they were
    selected and exactly [num_instances] of them, or a [NoValidHost] error,
    or the [IndexError] of [random.choice]; the last one is excluded when
    the weigher chain returns at least one host for every non-empty list.
    No shorter list is ever returned. *)
Theorem select_destinations_all_or_nothing conf w spec_obj :
  0 <= num_instances spec_obj ->
  let started := notify "scheduler.select_destinations.start" spec_obj w in
  let r := (select_destinations conf w spec_obj).1 in
  ((exists selected w',
       _schedule conf started spec_obj = (Returns selected, w')
       /\ r = Returns (destination_of (heap w') <$> selected)
       /\ Z.of_nat (length selected) = num_instances spec_obj)
   \/ (exists reason, r = Raises (NoValidHost reason))
   \/ r = Raises IndexError)
  /\ (weigher_nonempty -> r <> Raises IndexError)
  /\ (forall dests,
        r = Returns dests -> Z.of_nat (length dests) = num_instances spec_obj).
Proof.
  intros Hn started r. subst r. unfold select_destinations. fold started.
  pose proof (run_schedule_length conf started spec_obj) as Hlen.
  pose proof (schedule_loop_exn conf spec_obj
                (range (num_instances spec_obj))
                (initial_state started spec_obj)) as Hexn.
  pose proof (schedule_loop_no_exn conf spec_obj
                (range (num_instances spec_obj))
                (initial_state started spec_obj)) as Hnone.
  rewrite _schedule_run. simpl. unfold run_schedule in *.
  destruct (schedule_loop _ _ _ _) as [[e|] s]; simpl in *.
  - destruct (Hexn e eq_refl) as [-> _].
    split; [by right; right|]. split; [|done].
    intros Hw. by specialize (Hnone Hw).
  - destruct (Z.ltb_spec (Z.of_nat (length (selected_hosts s)))
                (num_instances spec_obj)) as [Hlt|Hge]; simpl.
    + split; [right; left; by eexists|]. split; done.
    + split; [left; eexists _, _; split; [reflexivity|split; [done|lia]]|].
      split; [done|]. intros dests [= <-]. rewrite length_fmap. lia.
Qed.

(** ** The failure path *)

Lemma invalidate_updated selected (h : Heap) r :
  updated (h r) = None \/ r ∈ obj <$> selected ->
  updated (invalidate selected h r) = None.
Proof.
  unfold invalidate. revert h.
  induction selected as [|x l IH]; intros h Hr; simpl.
  - destruct Hr as [Hr|Hr]; [done|]. by apply elem_of_nil in Hr.
  - apply IH. unfold heap_alter at 1.
    destruct (decide (r = obj x)) as [->|Hne]; [by left|].
    destruct Hr as [Hr|Hr]; [by left|]. right.
    rewrite fmap_cons in Hr. apply elem_of_cons in Hr as [Hr|Hr]; done.
Qed.

(** C2: when [_schedule] returns fewer hosts than [num_instances],
    [select_destinations] raises [NoValidHost], and in the host states it
    leaves behind the [updated] marker of every selected host is [None]. *)
Theorem shortfall_invalidates_selected conf w spec_obj selected w1 :
  _schedule conf (notify "scheduler.select_destinations.start" spec_obj w)
    spec_obj = (Returns selected, w1) ->
  Z.of_nat (length selected) < num_instances spec_obj ->
  exists w2,
    select_destinations conf w spec_obj
    = (Raises (NoValidHost "There are not enough hosts available."), w2)
    /\ forall host0, host0 ∈ selected -> updated (heap w2 (obj host0)) = None.
Proof.
  intros Hs Hlt. unfold select_destinations. rewrite Hs.
  apply Z.ltb_lt in Hlt. rewrite Hlt.
  eexists. split; [reflexivity|]. simpl. intros host0 Hin.
  apply invalidate_updated. right. by apply list_elem_of_fmap_2.
Qed.

(** ** Every host passes *)

Lemma all_rounds_continue conf spec_obj nums s :
  all_hosts_pass -> weigher_nonempty -> hosts s <> [] ->
  exists s',
    after_rounds conf spec_obj nums s = Some s'
    /\ hosts s' = hosts s
    /\ length (selected_hosts s')
       = (length (selected_hosts s) + length nums)%nat.
Proof.
  intros Hpass Hw. revert s.
  induction nums as [|num rest IH]; intros s Hne; simpl.
  - exists s. split; [done|]. split; [done|lia].
  - unfold schedule_round. rewrite Hpass.
    destruct (hosts s) as [|r l] eqn:Hh; [done|].
    destruct (choose_host_returns conf (ls_rng s)
                (get_weighed_hosts (ls_heap s) (r :: l) (filter_properties s)))
      as (x & g' & Hx); [by apply Hw|].
    rewrite Hx.
    edestruct IH as (s' & Hs' & Hhosts & Hlen); last first.
    { exists s'. split; [exact Hs'|]. simpl in *. split; [done|].
      rewrite Hlen, length_app. simpl. lia. }
    done.
Qed.

(** C5, as amended: when every host passes the filter chain in every
    round, the weigher chain returns at least one host for every non-empty
    list and the fleet has at least [num_instances] hosts, [_schedule]
    returns exactly [num_instances] selected hosts.  They need not be
    distinct. *)
Theorem all_pass_gives_exact_count conf w spec_obj :
  all_hosts_pass -> weigher_nonempty ->
  0 <= num_instances spec_obj ->
  (Z.to_nat (num_instances spec_obj)
   <= length (get_all_host_states (heap w)))%nat ->
  exists selected w',
    _schedule conf w spec_obj = (Returns selected, w')
    /\ Z.of_nat (length selected) = num_instances spec_obj.
Proof.
  intros Hpass Hw Hn Hfleet. rewrite _schedule_run. simpl.
  unfold run_schedule.
  destruct (Z.to_nat (num_instances spec_obj)) as [|k] eqn:Hk.
  - unfold range. rewrite Hk. simpl. eexists _, _. split; [reflexivity|].
    simpl. lia.
  - destruct (all_rounds_continue conf spec_obj
                (range (num_instances spec_obj)) (initial_state w spec_obj))
      as (s' & Hs' & _ & Hlen); [done|done| |].
    { simpl. unfold _get_all_host_states.
      destruct (get_all_host_states (heap w)); [simpl in Hfleet; lia|done]. }
    rewrite <- (app_nil_r (range _)).
    rewrite (schedule_loop_after _ _ _ [] _ _ Hs'). simpl.
    eexists _, _. split; [reflexivity|].
    rewrite Hlen, length_range. simpl. lia.
Qed.

(** ** Narrowing *)

Lemma filtered_per_round_head conf spec_obj nums s a :
  filtered_per_round conf spec_obj nums s !! 0%nat = Some a ->
  exists num,
    a = get_filtered_hosts (ls_heap s) (hosts s) (filter_properties s) num.
Proof.
  destruct nums as [|num rest]; simpl; [done|].
  pose proof (schedule_round_hosts conf spec_obj num s) as Hh.
  destruct (schedule_round conf spec_obj num s); simpl in *;
    intros [= <-]; eauto.
Qed.

Lemma filtered_per_round_adjacent conf spec_obj nums s k a b :
  filtered_per_round conf spec_obj nums s !! k = Some a ->
  filtered_per_round conf spec_obj nums s !! S k = Some b ->
  exists h fp index, b = get_filtered_hosts h a fp index.
Proof.
  revert s k. induction nums as [|num rest IH]; intros s k; simpl; [done|].
  destruct (schedule_round conf spec_obj num s) as [s'|s'|e s']; [|done..].
  destruct k as [|k]; simpl.
  - intros [= <-] Hb. apply filtered_per_round_head in Hb as [num' ->]. eauto.
  - apply IH.
Qed.

(** C7: when the filter chain returns a part of the list it is given, the
    first round filters the host list of the host manager and every later
    round filters the filtered list of the round before it, so that each
    filtered list is a part of the previous one and no longer than it. *)
Theorem filtered_lists_narrow conf w spec_obj :
  filter_narrows ->
  (forall a,
      filtered_lists conf w spec_obj !! 0%nat = Some a ->
      a ⊆+ get_all_host_states (heap w))
  /\ (forall k a b,
        filtered_lists conf w spec_obj !! k = Some a ->
        filtered_lists conf w spec_obj !! S k = Some b ->
        (exists h fp index, b = get_filtered_hosts h a fp index)
        /\ b ⊆+ a /\ (length b <= length a)%nat).
Proof.
  intros Hnarrow. unfold filtered_lists. split.
  - intros a Ha. apply filtered_per_round_head in Ha as [num ->].
    apply Hnarrow.
  - intros k a b Ha Hb.
    destruct (filtered_per_round_adjacent _ _ _ _ _ _ _ Ha Hb)
      as (h & fp & index & ->).
    split; [eauto|]. split; [apply Hnarrow|].
    apply submseteq_length, Hnarrow.
Qed.

(** ** Subset size 1 *)

Lemma effective_subset_size_le_one c wh :
  c <= 1 -> effective_subset_size c wh = 1.
Proof. intros Hc. rewrite effective_subset_size_max_min. lia. Qed.

Lemma choose_host_first conf g x rest :
  effective_subset_size (scheduler_host_subset_size conf) (x :: rest) = 1 ->
  choose_host conf g (x :: rest) = (Returns x, (randbelow g 1).2).
Proof.
  intros Heff. unfold choose_host, random_choice.
  rewrite slice_to_effective, Heff.
  change (take (Z.to_nat 1) (x :: rest)) with [x]. simpl length.
  pose proof (randbelow_lt g 1 (Nat.lt_0_1)) as Hlt.
  destruct (randbelow g 1) as [i g']. simpl in *.
  assert (i = 0%nat) as -> by lia. done.
Qed.

Lemma choose_host_nil conf g :
  choose_host conf g [] = (Raises IndexError, (randbelow g 0).2).
Proof.
  unfold choose_host, random_choice. rewrite slice_to_effective, take_nil.
  simpl length. destruct (randbelow g 0) as [i g']. by rewrite lookup_nil.
Qed.

Lemma schedule_round_rng_free conf spec_obj num s1 s2 :
  scheduler_host_subset_size conf <= 1 ->
  same_but_rng s1 s2 ->
  match schedule_round conf spec_obj num s1,
        schedule_round conf spec_obj num s2 with
  | Continue s1', Continue s2' => same_but_rng s1' s2'
  | Break s1', Break s2' => same_but_rng s1' s2'
  | Abort e1 s1', Abort e2 s2' => e1 = e2 /\ same_but_rng s1' s2'
  | _, _ => False
  end.
Proof.
  intros Hc. destruct s1 as [hs1 sel1 fp1 h1 g1], s2 as [hs2 sel2 fp2 h2 g2].
  unfold same_but_rng. simpl. intros (-> & -> & -> & ->).
  unfold schedule_round. simpl.
  destruct (get_filtered_hosts h2 hs2 fp2 num) as [|r l]; [done|].
  destruct (get_weighed_hosts h2 (r :: l) fp2) as [|x rest].
  - rewrite !choose_host_nil. done.
  - rewrite !choose_host_first by by apply effective_subset_size_le_one.
    done.
Qed.

Lemma schedule_loop_rng_free conf spec_obj nums s1 s2 :
  scheduler_host_subset_size conf <= 1 ->
  same_but_rng s1 s2 ->
  (schedule_loop conf spec_obj nums s1).1
  = (schedule_loop conf spec_obj nums s2).1
  /\ same_but_rng (schedule_loop conf spec_obj nums s1).2
       (schedule_loop conf spec_obj nums s2).2.
Proof.
  intros Hc. revert s1 s2.
  induction nums as [|num rest IH]; intros s1 s2 Hs; simpl; [done|].
  pose proof (schedule_round_rng_free conf spec_obj num s1 s2 Hc Hs) as Hr.
  destruct (schedule_round conf spec_obj num s1),
           (schedule_round conf spec_obj num s2); try done.
  - by apply IH.
  - destruct Hr as [-> Hr]. done.
Qed.

(** C8: when the subset size after the adjustments is 1, the pick is the
    first host of the weighed list, and this is the host the round appends
    to the selected hosts; with a configured size of at most 1 the hosts
    [_schedule] selects, in order, and the host states it leaves do not
    depend on the random source at all; and for every configured size, two
    runs on the same request, the same host states and the same state of
    the random source select the same sequence of hosts. *)
Theorem subset_size_one_is_deterministic conf :
  (forall g x rest,
      effective_subset_size (scheduler_host_subset_size conf) (x :: rest) = 1 ->
      (choose_host conf g (x :: rest)).1 = Returns x)
  /\ (forall spec_obj num s s' x rest,
        schedule_round conf spec_obj num s = Continue s' ->
        get_weighed_hosts (ls_heap s) (hosts s') (filter_properties s)
        = x :: rest ->
        effective_subset_size (scheduler_host_subset_size conf) (x :: rest)
        = 1 ->
        selected_hosts s' = selected_hosts s ++ [x])
  /\ (scheduler_host_subset_size conf <= 1 ->
      forall spec_obj w1 w2,
        heap w1 = heap w2 ->
        (_schedule conf w1 spec_obj).1 = (_schedule conf w2 spec_obj).1
        /\ heap (_schedule conf w1 spec_obj).2
           = heap (_schedule conf w2 spec_obj).2)
  /\ (forall spec_obj w1 w2,
        heap w1 = heap w2 -> rng w1 = rng w2 ->
        (_schedule conf w1 spec_obj).1 = (_schedule conf w2 spec_obj).1).
Proof.
  split; [|split; [|split]].
  - intros g x rest Heff. by rewrite choose_host_first.
  - intros spec_obj num s s' x rest Hr Hw Heff.
    apply schedule_round_pick in Hr as (y & Hy & Hsel).
    rewrite Hw, choose_host_first in Hy by done. by injection Hy as <- _.
  - intros Hc spec_obj w1 w2 Hheap. rewrite !_schedule_run. simpl.
    unfold run_schedule.
    destruct (schedule_loop_rng_free conf spec_obj
                (range (num_instances spec_obj))
                (initial_state w1 spec_obj) (initial_state w2 spec_obj) Hc)
      as (He & _ & Hsel & _ & Hh).
    { unfold same_but_rng, initial_state. simpl. by rewrite Hheap. }
    rewrite He, Hsel, Hh. done.
  - intros spec_obj w1 w2 Hheap Hrng. rewrite !_schedule_run. simpl.
    unfold run_schedule, initial_state. by rewrite Hheap, Hrng.
Qed.

(** ** An empty batch *)

(** C10: with [num_instances = 0] the loop runs no round, and
    [select_destinations] returns the empty list: it raises nothing, sends
    the start and the end notification, and leaves the host states and the
    random generator as they were. *)
Theorem zero_instances_returns_empty conf w spec_obj :
  num_instances spec_obj = 0 ->
  select_destinations conf w spec_obj
  = (Returns [],
     mkWorld (heap w)
       (notifications w
        ++ [mkNotification "scheduler.select_destinations.start" spec_obj;
            mkNotification "scheduler.select_destinations.end" spec_obj])
       (rng w))
  /\ filtered_lists conf
       (notify "scheduler.select_destinations.start" spec_obj w) spec_obj
     = [].
Proof.
  intros Hn. unfold select_destinations, filtered_lists, _schedule, run_schedule.
  rewrite Hn. simpl. unfold notify. simpl. by rewrite <- app_assoc.
Qed.

End Properties.

(** ** The same host in every round *)

Section FirstHost.

Context {G : Type} {RS : RandomSource G} {CO : Consumption}.

Lemma first_host_every_round spec_obj nums (s : @LoopState G) l :
  hosts s = 0%nat :: l ->
  let r := schedule_loop (HM := all_pass_manager) (mkConfig 1) spec_obj nums s in
  r.1 = None
  /\ selected_hosts r.2
     = selected_hosts s ++ replicate (length nums) (mkWeighedHost 0%nat 0)
  /\ ls_heap r.2 0%nat
     = Nat.iter (length nums) (fun hs => consume_from_request hs spec_obj)
         (ls_heap s 0%nat).
Proof.
  revert s. induction nums as [|num rest IH]; intros s Hh; simpl.
  - by rewrite app_nil_r.
  - unfold schedule_round. simpl. rewrite Hh. simpl.
    rewrite (choose_host_first (mkConfig 1))
      by by apply effective_subset_size_le_one.
    simpl. edestruct IH as (He & Hsel & Hheap); last first.
    { split; [exact He|]. rewrite Hsel, Hheap. simpl. split.
      - by rewrite <- app_assoc.
      - symmetry.
        apply (Nat.iter_succ_r (length rest)
                 (fun hs => consume_from_request hs spec_obj)
                 (ls_heap s 0%nat)). }
    done.
Qed.

End FirstHost.

(** C9: a round leaves the whole filtered list, the chosen host included,
    as the host list of the next round; and with subset size 1, a filter
    chain that lets every host pass and a weigher chain that keeps the
    order of the list, every round selects the first host of the fleet, so
    that the selected list holds this host [num_instances] times and its
    host state has been consumed from once per round. *)
Theorem same_host_selected_every_round :
  (forall G (RS : RandomSource G) (HM : HostManager) (CO : Consumption)
          conf spec_obj num (s s' : @LoopState G),
      schedule_round conf spec_obj num s = Continue s' ->
      hosts s'
      = get_filtered_hosts (ls_heap s) (hosts s) (filter_properties s) num)
  /\ (forall G (RS : RandomSource G) (CO : Consumption)
             (w : @World G) spec_obj,
        let r := run_schedule (HM := all_pass_manager) (mkConfig 1) w spec_obj in
        let n := Z.to_nat (num_instances spec_obj) in
        r.1 = None
        /\ selected_hosts r.2 = replicate n (mkWeighedHost 0%nat 0)
        /\ ls_heap r.2 0%nat
           = Nat.iter n (fun hs => consume_from_request hs spec_obj)
               (heap w 0%nat))
  /\ (let r := _schedule (RS := lcg) (HM := all_pass_manager) (CO := debit)
                 (mkConfig 1) (fleet_world 7) (batch 3) in
      r.1 = Returns (replicate 3 (mkWeighedHost 0%nat 0))
      /\ capacity (heap r.2 0%nat) = capacity (fleet_heap 0%nat) - 3 * 1).
Proof.
  split; [|split].
  - intros G RS HM CO conf spec_obj num s s' Hr.
    pose proof (schedule_round_hosts conf spec_obj num s) as Hh.
    by rewrite Hr in Hh.
  - intros G RS CO w spec_obj r n. subst r n. unfold run_schedule.
    destruct (first_host_every_round spec_obj
                (range (num_instances spec_obj))
                (initial_state (HM := all_pass_manager) w spec_obj) [1; 2]%nat)
      as (He & Hsel & Hheap); [done|].
    rewrite length_range in *. done.
  - split; reflexivity.
Qed.

(** ** The claims on the fleet *)

Lemma all_pass_weigher_nonempty : weigher_nonempty (HM := all_pass_manager).
Proof. intros h l fp Hl. simpl. by destruct l. Qed.

Lemma all_pass_all_hosts_pass : all_hosts_pass (HM := all_pass_manager).
Proof. by intros h l fp index. Qed.

Lemma capacity_filter_narrows : filter_narrows (HM := capacity_manager).
Proof.
  intros h l fp index. simpl. induction l as [|r l IH]; simpl; [done|].
  destruct (has_room h fp r).
  - by apply submseteq_skip.
  - by apply submseteq_cons.
Qed.

(** The subset pick on three weighed hosts: a configured size of 0 picks as
    size 1 does. *)
Lemma subset_size_is_clamped_witness :
  0 < 1
  /\ choose_host (RS := lcg) (mkConfig 0) 7%nat
       [mkWeighedHost 0%nat 0; mkWeighedHost 1%nat 0; mkWeighedHost 2%nat 0]
     = choose_host (RS := lcg) (mkConfig 1) 7%nat
         [mkWeighedHost 0%nat 0; mkWeighedHost 1%nat 0; mkWeighedHost 2%nat 0].
Proof.
  split; [lia|].
  refine (proj1 (proj1 (proj2 (proj2
    (subset_size_is_clamped (RS := lcg) (HM := all_pass_manager) (CO := debit)
       0 _ 7%nat))) _)).
  lia.
Defined.

(** [_schedule] returns on the fleet when every host passes, and raises
    [IndexError] in the first round when the weigher chain returns no
    host. *)
Lemma schedule_returns_unless_weigher_empty_witness :
  (weigher_nonempty (HM := all_pass_manager)
   /\ exists selected w',
        _schedule (RS := lcg) (HM := all_pass_manager) (CO := debit)
          (mkConfig 1) (fleet_world 7) (batch 2) = (Returns selected, w')
        /\ (length selected <= Z.to_nat (num_instances (batch 2)))%nat)
  /\ (range (num_instances (batch 2)) = [] ++ 0 :: [1]
      /\ exists w',
           _schedule (RS := lcg) (HM := empty_weigher_manager) (CO := debit)
             (mkConfig 1) (fleet_world 7) (batch 2)
           = (Raises IndexError, w')
           /\ heap w' = heap (fleet_world 7)).
Proof.
  split.
  - split; [exact all_pass_weigher_nonempty|].
    exact (proj1 (schedule_returns_unless_weigher_empty
                    (RS := lcg) (HM := all_pass_manager) (CO := debit)
                    (mkConfig 1) (fleet_world 7) (batch 2))
             all_pass_weigher_nonempty).
  - split; [reflexivity|].
    refine (proj1 (proj2 (proj2 (schedule_returns_unless_weigher_empty
                                   (RS := lcg) (HM := empty_weigher_manager)
                                   (CO := debit) (mkConfig 1) (fleet_world 7)
                                   (batch 2))))
              [] 0 [1]
              (initial_state (HM := empty_weigher_manager) (fleet_world 7)
                 (batch 2))
              eq_refl eq_refl _ eq_refl).
    simpl. discriminate.
Defined.

(** C4, as stated, fails: with a weigher chain that returns no host for
    the non-empty filtered list, [_schedule] raises [IndexError] and returns
    no list. *)
Lemma schedule_raises_index_error :
  let r := (_schedule (RS := lcg) (HM := empty_weigher_manager) (CO := debit)
              (mkConfig 1) (fleet_world 7) (batch 2)).1 in
  r = Raises IndexError /\ ~ (exists selected, r = Returns selected).
Proof.
  intros r. assert (r = Raises IndexError) as Hr by reflexivity.
  split; [exact Hr|]. rewrite Hr. intros [selected Hs]. discriminate.
Qed.

(** A batch of five on the three hosts of the fleet: three rounds select
    a host each, the filter chain returns no host in the fourth, and
    [_schedule] returns the three hosts. *)
Lemma selected_bounded_and_stops_on_empty_witness :
  0 <= num_instances (batch 5)
  /\ Z.of_nat
       (length
          (selected_hosts
             (run_schedule (RS := lcg) (HM := capacity_manager) (CO := debit)
                (mkConfig 1) (fleet_world 7) (batch 5)).2))
     <= num_instances (batch 5)
  /\ exists s,
       range (num_instances (batch 5)) = [0; 1; 2] ++ 3 :: [4]
       /\ after_rounds (RS := lcg) (HM := capacity_manager) (CO := debit)
            (mkConfig 1) (batch 5) [0; 1; 2]
            (initial_state (HM := capacity_manager) (fleet_world 7) (batch 5))
          = Some s
       /\ selected_hosts s
          = [mkWeighedHost 0%nat 0; mkWeighedHost 1%nat 0;
             mkWeighedHost 2%nat 0]
       /\ _schedule (RS := lcg) (HM := capacity_manager) (CO := debit)
            (mkConfig 1) (fleet_world 7) (batch 5)
          = (Returns (selected_hosts s),
             mkWorld (ls_heap s) (notifications (fleet_world 7)) (ls_rng s)).
Proof.
  assert (0 <= num_instances (batch 5)) as Hn by (simpl; lia).
  pose proof (selected_bounded_and_stops_on_empty
                (RS := lcg) (HM := capacity_manager) (CO := debit)
                (mkConfig 1) (fleet_world 7) (batch 5) Hn) as Hthm.
  split; [exact Hn|]. split; [exact (proj1 Hthm)|].
  eexists. split; [reflexivity|]. split; [reflexivity|].
  split; [reflexivity|].
  apply (proj2 (proj2 Hthm) [0; 1; 2] 3 [4]); reflexivity.
Defined.

(** A batch of two on the fleet: any list returned has two entries. *)
Lemma select_destinations_all_or_nothing_witness :
  0 <= num_instances (batch 2)
  /\ forall dests,
       (select_destinations (RS := lcg) (HM := capacity_manager) (CO := debit)
          (mkConfig 1) (fleet_world 7) (batch 2)).1 = Returns dests ->
       Z.of_nat (length dests) = num_instances (batch 2).
Proof.
  split; [simpl; lia|].
  refine (proj2 (proj2 (select_destinations_all_or_nothing
                          (RS := lcg) (HM := capacity_manager) (CO := debit)
                          (mkConfig 1) (fleet_world 7) (batch 2) _))).
  simpl. lia.
Defined.

(** C1, as stated, fails: with a weigher chain that returns no host, the
    caller gets an [IndexError], which is neither a list of
    [num_instances] destinations nor a [NoValidHost] error. *)
Lemma select_destinations_index_error :
  let r := (select_destinations (RS := lcg) (HM := empty_weigher_manager)
              (CO := debit) (mkConfig 1) (fleet_world 7) (batch 2)).1 in
  r = Raises IndexError
  /\ ~ ((exists dests,
            r = Returns dests
            /\ Z.of_nat (length dests) = num_instances (batch 2))
        \/ exists reason, r = Raises (NoValidHost reason)).
Proof.
  intros r. assert (r = Raises IndexError) as Hr by reflexivity.
  split; [exact Hr|]. rewrite Hr.
  intros [(dests & Hd & _)|(reason & Hd)]; discriminate.
Qed.

(** P5 of the spec: three hosts with room for one instance each and a
    batch of five.  The three hosts are selected, the call fails and the
    marker of each of them is cleared. *)
Lemma shortfall_invalidates_selected_witness :
  let selected :=
    [mkWeighedHost 0%nat 0; mkWeighedHost 1%nat 0; mkWeighedHost 2%nat 0] in
  let run :=
    _schedule (RS := lcg) (HM := capacity_manager) (CO := debit) (mkConfig 1)
      (notify "scheduler.select_destinations.start" (batch 5) (fleet_world 7))
      (batch 5) in
  run = (Returns selected, run.2)
  /\ Z.of_nat (length selected) < num_instances (batch 5)
  /\ exists w2,
       select_destinations (RS := lcg) (HM := capacity_manager) (CO := debit)
         (mkConfig 1) (fleet_world 7) (batch 5)
       = (Raises (NoValidHost "There are not enough hosts available."), w2)
       /\ forall host0,
            host0 ∈ selected -> updated (heap w2 (obj host0)) = None.
Proof.
  intros selected run.
  assert (run = (Returns selected, run.2)) as Hrun
    by (apply injective_projections; reflexivity).
  assert (Z.of_nat (length selected) < num_instances (batch 5)) as Hlt
    by (simpl; lia).
  split; [exact Hrun|]. split; [exact Hlt|].
  exact (shortfall_invalidates_selected
           (RS := lcg) (HM := capacity_manager) (CO := debit)
           (mkConfig 1) (fleet_world 7) (batch 5) selected run.2 Hrun Hlt).
Defined.

(** Two instances on the three hosts of the fleet, every host passing. *)
Lemma all_pass_gives_exact_count_witness :
  all_hosts_pass (HM := all_pass_manager)
  /\ weigher_nonempty (HM := all_pass_manager)
  /\ 0 <= num_instances (batch 2)
  /\ (Z.to_nat (num_instances (batch 2))
      <= length (get_all_host_states (HostManager := all_pass_manager)
                   (heap (fleet_world 7))))%nat
  /\ exists selected w',
       _schedule (RS := lcg) (HM := all_pass_manager) (CO := debit)
         (mkConfig 1) (fleet_world 7) (batch 2) = (Returns selected, w')
       /\ Z.of_nat (length selected) = num_instances (batch 2).
Proof.
  assert (0 <= num_instances (batch 2)) as Hn by (simpl; lia).
  assert (Z.to_nat (num_instances (batch 2))
          <= length (get_all_host_states (HostManager := all_pass_manager)
                       (heap (fleet_world 7))))%nat as Hfleet
    by (simpl; lia).
  split; [exact all_pass_all_hosts_pass|].
  split; [exact all_pass_weigher_nonempty|].
  split; [exact Hn|]. split; [exact Hfleet|].
  exact (all_pass_gives_exact_count
           (RS := lcg) (HM := all_pass_manager) (CO := debit)
           (mkConfig 1) (fleet_world 7) (batch 2)
           all_pass_all_hosts_pass all_pass_weigher_nonempty Hn Hfleet).
Defined.

(** C5, as stated, fails: on three hosts that all pass every round, a
    batch of two selects the first host twice. *)
Lemma all_pass_selects_a_host_twice :
  let r := (_schedule (RS := lcg) (HM := all_pass_manager) (CO := debit)
              (mkConfig 1) (fleet_world 7) (batch 2)).1 in
  all_hosts_pass (HM := all_pass_manager)
  /\ (Z.to_nat (num_instances (batch 2))
      <= length (get_all_host_states (HostManager := all_pass_manager)
                   (heap (fleet_world 7))))%nat
  /\ r = Returns [mkWeighedHost 0%nat 0; mkWeighedHost 0%nat 0]
  /\ ~ (exists selected, r = Returns selected /\ NoDup (obj <$> selected)).
Proof.
  intros r.
  assert (r = Returns [mkWeighedHost 0%nat 0; mkWeighedHost 0%nat 0]) as Hr
    by reflexivity.
  split; [exact all_pass_all_hosts_pass|]. split; [simpl; lia|].
  split; [exact Hr|]. rewrite Hr. intros (selected & [= <-] & Hnd).
  simpl in Hnd. apply NoDup_cons in Hnd as [Hnotin _].
  apply Hnotin. by left.
Qed.

(** The filtered lists of a batch of five on the fleet: the second one is
    a part of the first. *)
Lemma filtered_lists_narrow_witness :
  let lists :=
    filtered_lists (RS := lcg) (HM := capacity_manager) (CO := debit)
      (mkConfig 1) (fleet_world 7) (batch 5) in
  filter_narrows (HM := capacity_manager)
  /\ lists !! 0%nat = Some [0; 1; 2]%nat
  /\ lists !! 1%nat = Some [1; 2]%nat
  /\ ([1; 2]%nat ⊆+ [0; 1; 2]%nat
      /\ (length [1; 2]%nat <= length [0; 1; 2]%nat)%nat).
Proof.
  intros lists.
  assert (lists !! 0%nat = Some [0; 1; 2]%nat) as H0 by reflexivity.
  assert (lists !! 1%nat = Some [1; 2]%nat) as H1 by reflexivity.
  split; [exact capacity_filter_narrows|]. split; [exact H0|].
  split; [exact H1|].
  exact (proj2 (proj2 (filtered_lists_narrow
                         (RS := lcg) (HM := capacity_manager) (CO := debit)
                         (mkConfig 1) (fleet_world 7) (batch 5)
                         capacity_filter_narrows)
                  0%nat [0; 1; 2]%nat [1; 2]%nat H0 H1)).
Defined.

(** Two runs of a batch of three with subset size 1 and different seeds of
    the generator select the same hosts. *)
Lemma subset_size_one_is_deterministic_witness :
  scheduler_host_subset_size (mkConfig 1) <= 1
  /\ heap (fleet_world 3) = heap (fleet_world 11)
  /\ (_schedule (RS := lcg) (HM := capacity_manager) (CO := debit)
        (mkConfig 1) (fleet_world 3) (batch 3)).1
     = (_schedule (RS := lcg) (HM := capacity_manager) (CO := debit)
          (mkConfig 1) (fleet_world 11) (batch 3)).1.
Proof.
  assert (scheduler_host_subset_size (mkConfig 1) <= 1) as Hc by (simpl; lia).
  split; [exact Hc|]. split; [reflexivity|].
  exact (proj1 (proj1 (proj2 (proj2 (subset_size_one_is_deterministic
                                       (RS := lcg) (HM := capacity_manager)
                                       (CO := debit) (mkConfig 1))))
                  Hc (batch 3) (fleet_world 3) (fleet_world 11) eq_refl)).
Defined.

(** An empty batch on the fleet. *)
Lemma zero_instances_returns_empty_witness :
  num_instances (batch 0) = 0
  /\ select_destinations (RS := lcg) (HM := capacity_manager) (CO := debit)
       (mkConfig 1) (fleet_world 7) (batch 0)
     = (Returns [],
        mkWorld (heap (fleet_world 7))
          (notifications (fleet_world 7)
           ++ [mkNotification "scheduler.select_destinations.start" (batch 0);
               mkNotification "scheduler.select_destinations.end" (batch 0)])
          (rng (fleet_world 7))).
Proof.
  split; [reflexivity|].
  exact (proj1 (zero_instances_returns_empty
                  (RS := lcg) (HM := capacity_manager) (CO := debit)
                  (mkConfig 1) (fleet_world 7) (batch 0) eq_refl)).
Defined.

(** The first round of a batch of three on the fleet leaves the three
    hosts as the host list of the second round. *)
Lemma same_host_selected_every_round_witness :
  let s := initial_state (HM := all_pass_manager) (fleet_world 7) (batch 3) in
  let st :=
    schedule_round (RS := lcg) (HM := all_pass_manager) (CO := debit)
      (mkConfig 1) (batch 3) 0 s in
  st = Continue (step_state st)
  /\ hosts (step_state st) = [0; 1; 2]%nat.
Proof.
  intros s st. assert (st = Continue (step_state st)) as Hst by reflexivity.
  split; [exact Hst|].
  exact (proj1 same_host_selected_every_round nat lcg all_pass_manager debit
           (mkConfig 1) (batch 3) 0 s (step_state st) Hst).
Defined.

(** * Further properties of the loop and of the call *)

Section Coverage.

Context {G : Type} {RS : RandomSource G} {HM : HostManager} {CO : Consumption}.

Implicit Types (conf : Config) (spec_obj : RequestSpec) (w : @World G).
Implicit Types (s : @LoopState G) (wh : list WeighedHost) (g : G).
Implicit Types (nums : list Z).

(** ** One round, taken apart *)

Lemma schedule_round_inv conf spec_obj num s :
  let filtered :=
    get_filtered_hosts (ls_heap s) (hosts s) (filter_properties s) num in
  match schedule_round conf spec_obj num s with
  | Continue s' =>
      exists x,
        let heap' :=
          heap_alter (fun hs => consume_from_request hs spec_obj) (obj x)
            (ls_heap s) in
        choose_host conf (ls_rng s)
          (get_weighed_hosts (ls_heap s) filtered (filter_properties s))
        = (Returns x, ls_rng s')
        /\ filtered <> []
        /\ s' = mkLoopState filtered (selected_hosts s ++ [x])
                  (add_group_host (filter_properties s) (host (heap' (obj x))))
                  heap' (ls_rng s')
  | Break s' =>
      filtered = []
      /\ s' = mkLoopState [] (selected_hosts s) (filter_properties s)
                (ls_heap s) (ls_rng s)
  | Abort e s' =>
      filtered <> []
      /\ (choose_host conf (ls_rng s)
            (get_weighed_hosts (ls_heap s) filtered (filter_properties s))).1
         = Raises e
      /\ s' = mkLoopState filtered (selected_hosts s) (filter_properties s)
                (ls_heap s) (ls_rng s')
  end.
Proof.
  intros filtered. subst filtered. unfold schedule_round.
  destruct (get_filtered_hosts _ _ _ _) as [|r l]; [done|].
  destruct (choose_host _ _ _) as [[x|e] g']; [|done].
  exists x. done.
Qed.

(** A property of the loop variables that every round keeps holds when the
    loop is left. *)
Lemma schedule_loop_invariant (P : @LoopState G -> Prop) conf spec_obj :
  (forall num s, P s -> P (step_state (schedule_round conf spec_obj num s))) ->
  forall nums s, P s -> P (schedule_loop conf spec_obj nums s).2.
Proof.
  intros Hstep nums. induction nums as [|num rest IH]; intros s Hs; simpl; [done|].
  specialize (Hstep num s Hs).
  destruct (schedule_round conf spec_obj num s); simpl in *; [by apply IH|done..].
Qed.

(** ** What the loop does to the host states *)

Lemma times_selected_snoc r selected x :
  times_selected r (selected ++ [x])
  = (times_selected r selected + (if decide (obj x = r) then 1 else 0))%nat.
Proof.
  unfold times_selected. rewrite filter_app, length_app. f_equal.
  rewrite filter_cons, filter_nil. by destruct (decide (obj x = r)).
Qed.

Lemma times_selected_none r selected :
  r ∉ obj <$> selected -> times_selected r selected = 0%nat.
Proof.
  unfold times_selected. induction selected as [|x l IH]; [done|].
  rewrite fmap_cons, not_elem_of_cons. intros [Hne Hl].
  rewrite filter_cons. destruct (decide (obj x = r)); [congruence|].
  by apply IH.
Qed.

Lemma schedule_loop_consumed conf spec_obj nums s (h0 : Heap) :
  (forall r,
      ls_heap s r
      = Nat.iter (times_selected r (selected_hosts s))
          (fun hs => consume_from_request hs spec_obj) (h0 r)) ->
  forall r,
    ls_heap (schedule_loop conf spec_obj nums s).2 r
    = Nat.iter
        (times_selected r
           (selected_hosts (schedule_loop conf spec_obj nums s).2))
        (fun hs => consume_from_request hs spec_obj) (h0 r).
Proof.
  apply (schedule_loop_invariant
           (fun s =>
              forall r,
                ls_heap s r
                = Nat.iter (times_selected r (selected_hosts s))
                    (fun hs => consume_from_request hs spec_obj) (h0 r))).
  clear s. intros num s Hs.
  pose proof (schedule_round_inv conf spec_obj num s) as Hinv.
  destruct (schedule_round conf spec_obj num s) as [s'|s'|e s']; simpl in *.
  - destruct Hinv as (x & _ & _ & ->). simpl. intros r.
    rewrite times_selected_snoc. unfold heap_alter.
    destruct (decide (r = obj x)) as [->|Hne].
    + rewrite decide_True by done. rewrite Nat.add_1_r. simpl. by rewrite Hs.
    + rewrite decide_False by done. rewrite Nat.add_0_r. apply Hs.
  - destruct Hinv as (_ & ->). done.
  - destruct Hinv as (_ & _ & ->). done.
Qed.

(** X1: the host state of every host, when the loop is left, is what
    [consume_from_request] makes of its state on entry, applied once for
    each time the host stands in the selected hosts; a host that was not
    selected has its state untouched.  The same holds for what [_schedule]
    returns. *)
Theorem consumed_once_per_selection conf w spec_obj :
  let s := (run_schedule conf w spec_obj).2 in
  (forall r,
      ls_heap s r
      = Nat.iter (times_selected r (selected_hosts s))
          (fun hs => consume_from_request hs spec_obj) (heap w r))
  /\ (forall r, r ∉ obj <$> selected_hosts s -> ls_heap s r = heap w r)
  /\ (forall selected w' r,
        _schedule conf w spec_obj = (Returns selected, w') ->
        heap w' r
        = Nat.iter (times_selected r selected)
            (fun hs => consume_from_request hs spec_obj) (heap w r)).
Proof.
  intros s.
  assert (forall r,
             ls_heap s r
             = Nat.iter (times_selected r (selected_hosts s))
                 (fun hs => consume_from_request hs spec_obj) (heap w r))
    as Hall.
  { subst s. unfold run_schedule. by apply schedule_loop_consumed. }
  split; [exact Hall|]. split.
  - intros r Hr. by rewrite Hall, times_selected_none.
  - intros selected w' r. rewrite _schedule_run. simpl. fold s.
    destruct (run_schedule conf w spec_obj).1; [done|].
    intros [= <- <-]. simpl. apply Hall.
Qed.

(** ** The store after the call *)

Lemma invalidate_lookup selected (h : Heap) r :
  invalidate selected h r
  = if decide (r ∈ obj <$> selected) then set_updated None (h r) else h r.
Proof.
  unfold invalidate. revert h.
  induction selected as [|x l IH]; intros h; simpl; [done|].
  rewrite IH. unfold heap_alter.
  change (list_fmap WeighedHost HostRef obj l) with (obj <$> l).
  destruct (decide (r ∈ obj x :: (obj <$> l))) as [Hin|Hnin];
    destruct (decide (r ∈ obj <$> l)) as [Hl|Hl];
    destruct (decide (r = obj x)) as [->|Hne]; try done.
  - apply elem_of_cons in Hin as [Hin|Hin]; done.
  - destruct Hnin. by apply list_elem_of_further.
  - destruct Hnin. by apply list_elem_of_further.
  - destruct Hnin. apply list_elem_of_here.
Qed.

Lemma _schedule_raises conf w spec_obj e w' :
  _schedule conf w spec_obj = (Raises e, w') -> e = IndexError.
Proof.
  rewrite _schedule_run. simpl.
  destruct (run_schedule conf w spec_obj).1 as [e'|] eqn:He; [|done].
  intros [= <- _]. by apply schedule_loop_exn in He as [-> _].
Qed.

(** X2: when [select_destinations] raises [NoValidHost], the reason is the
    fixed message, [_schedule] had returned fewer hosts than
    [num_instances], and the host states are those [_schedule] left with
    the [updated] marker of the selected hosts set to [None] and nothing
    else changed: what the rounds consumed is not given back. *)
Theorem no_valid_host_keeps_consumption conf w spec_obj reason w2 :
  select_destinations conf w spec_obj = (Raises (NoValidHost reason), w2) ->
  reason = "There are not enough hosts available."
  /\ exists selected w1,
       _schedule conf
         (notify "scheduler.select_destinations.start" spec_obj w) spec_obj
       = (Returns selected, w1)
       /\ Z.of_nat (length selected) < num_instances spec_obj
       /\ (forall r,
             heap w2 r
             = if decide (r ∈ obj <$> selected)
               then set_updated None (heap w1 r) else heap w1 r)
       /\ (forall r, capacity (heap w2 r) = capacity (heap w1 r))
       /\ rng w2 = rng w1.
Proof.
  unfold select_destinations.
  destruct (_schedule conf _ spec_obj) as [[selected|e] w1] eqn:Hs.
  - destruct (Z.ltb_spec (Z.of_nat (length selected))
                (num_instances spec_obj)) as [Hlt|Hge]; [|done].
    intros [= <- <-]. split; [done|]. exists selected, w1.
    split; [done|]. split; [done|]. simpl.
    split; [intros r; apply invalidate_lookup|]. split; [|done].
    intros r. rewrite invalidate_lookup. by destruct (decide _).
  - apply _schedule_raises in Hs as ->. done.
Qed.

(** X3: a call sends the start notification after the ones already sent,
    and the end notification after it exactly when it returns a list; when
    it raises, the start notification is the last one. *)
Theorem notifications_of_a_call conf w spec_obj :
  let out := select_destinations conf w spec_obj in
  notifications out.2
  = notifications w
    ++ mkNotification "scheduler.select_destinations.start" spec_obj
       :: match out.1 with
          | Returns _ =>
              [mkNotification "scheduler.select_destinations.end" spec_obj]
          | Raises _ => []
          end.
Proof.
  intros out. subst out. unfold select_destinations.
  rewrite _schedule_run. simpl.
  destruct (run_schedule conf _ spec_obj).1; simpl; [done|].
  destruct (Z.ltb_spec
              (Z.of_nat (length (selected_hosts
                 (run_schedule conf
                    (notify "scheduler.select_destinations.start" spec_obj w)
                    spec_obj).2)))
              (num_instances spec_obj)); simpl; [done|].
  by rewrite <- app_assoc.
Qed.

Lemma iter_capacity_le (f : HostState -> HostState) k hs :
  (forall hs', capacity (f hs') <= capacity hs') ->
  capacity (Nat.iter k f hs) <= capacity hs.
Proof.
  intros Hf. induction k as [|k IH]; simpl; [lia|].
  specialize (Hf (Nat.iter k f hs)). lia.
Qed.

(** X4: when [consume_from_request] never raises the capacity of a host
    state for this request, no host has more capacity after the call than
    before it, whether the call returns or raises. *)
Theorem capacity_never_increases conf w spec_obj :
  (forall hs, capacity (consume_from_request hs spec_obj) <= capacity hs) ->
  forall r,
    capacity (heap (select_destinations conf w spec_obj).2 r)
    <= capacity (heap w r).
Proof.
  intros Hf r.
  pose proof (schedule_loop_consumed conf spec_obj
                (range (num_instances spec_obj))
                (initial_state
                   (notify "scheduler.select_destinations.start" spec_obj w)
                   spec_obj) (heap w) (fun _ => eq_refl) r) as Hr.
  assert (capacity
            (ls_heap (run_schedule conf
                        (notify "scheduler.select_destinations.start"
                           spec_obj w) spec_obj).2 r)
          <= capacity (heap w r)) as Hle.
  { unfold run_schedule. rewrite Hr. by apply iter_capacity_le. }
  unfold select_destinations. rewrite _schedule_run. simpl.
  destruct (run_schedule conf _ spec_obj).1; simpl; [done|].
  destruct (Z.of_nat _ <? num_instances spec_obj); simpl; [|done].
  rewrite invalidate_lookup. by destruct (decide _).
Qed.

(** ** The pick and the draw *)

(** X5: on a non-empty weighed list the subset size lies between 1 and the
    length of the list, [random.choice] draws an index below it, and the
    chosen host is the weighed host at the drawn index. *)
Theorem pick_is_the_drawn_index conf g wh :
  wh <> [] ->
  let size :=
    Z.to_nat (effective_subset_size (scheduler_host_subset_size conf) wh) in
  (1 <= size <= length wh)%nat
  /\ ((randbelow g size).1 < size)%nat
  /\ exists x,
       wh !! (randbelow g size).1 = Some x
       /\ choose_host conf g wh = (Returns x, (randbelow g size).2).
Proof.
  intros Hne size.
  assert (1 <= size <= length wh)%nat as Hsize.
  { subst size. rewrite effective_subset_size_max_min.
    destruct wh; [done|]. simpl length. lia. }
  assert ((randbelow g size).1 < size)%nat as Hlt
    by (apply randbelow_lt; lia).
  split; [exact Hsize|]. split; [exact Hlt|].
  unfold choose_host, random_choice. rewrite slice_to_effective. fold size.
  rewrite length_take, Nat.min_l by lia.
  destruct (randbelow g size) as [i g'] eqn:Hd. simpl in *.
  rewrite lookup_take_lt by done.
  destruct (lookup_lt_is_Some_2 wh i) as [x Hx]; [lia|].
  exists x. by rewrite Hx.
Qed.

(** ** The rounds of a run *)

(** What a run selects against the filtered list of each round. *)
Lemma schedule_loop_trace conf spec_obj nums s :
  let out := schedule_loop conf spec_obj nums s in
  let lists := filtered_per_round conf spec_obj nums s in
  exists new,
    selected_hosts out.2 = selected_hosts s ++ new
    /\ (length lists <= length nums)%nat
    /\ (length new <= length lists <= S (length new))%nat
    /\ (forall k x,
          new !! k = Some x ->
          exists a,
            lists !! k = Some a /\ a <> []
            /\ exists h fp, x ∈ get_weighed_hosts h a fp)
    /\ (out.1 = None ->
        length new = length nums
        \/ (lists !! length new = Some [] /\ length lists = S (length new)))
    /\ (forall e,
          out.1 = Some e ->
          exists a,
            lists !! length new = Some a /\ a <> []
            /\ length lists = S (length new)).
Proof.
  revert s. induction nums as [|num rest IH]; intros s; simpl.
  - exists []. rewrite app_nil_r. simpl.
    split; [done|]. split; [lia|]. split; [lia|]. split; [done|].
    split; [by left|done].
  - pose proof (schedule_round_inv conf spec_obj num s) as Hinv.
    destruct (schedule_round conf spec_obj num s) as [s'|s'|e s'];
      simpl in *.
    + destruct Hinv as (x & Hc & Hne & Hs').
      assert (selected_hosts s' = selected_hosts s ++ [x]) as Hsel'
        by (by rewrite Hs').
      assert (hosts s'
              = get_filtered_hosts (ls_heap s) (hosts s)
                  (filter_properties s) num) as Hhosts
        by (by rewrite Hs').
      destruct (IH s') as (new & Hsel & Hlen & Hb & Hk & Hn & He).
      exists (x :: new). simpl.
      split; [by rewrite Hsel, Hsel', <- app_assoc|].
      split; [lia|]. split; [lia|]. split; [|split].
      * intros [|k] y; simpl; [|apply Hk].
        intros [= <-]. exists (hosts s').
        split; [done|]. split; [by rewrite Hhosts|].
        apply choose_host_elem, elem_of_take in Hc as (i & Hi & _).
        rewrite Hhosts. eexists _, _. eapply list_elem_of_lookup_2, Hi.
      * intros Hout. destruct (Hn Hout) as [Hl|[Hl1 Hl2]];
          [left; lia|right; split; [done|lia]].
      * intros e Hout. destruct (He e Hout) as (a & Ha & Hane & Hl).
        exists a. split; [done|]. split; [done|lia].
    + destruct Hinv as (Hnil & ->). exists []. rewrite app_nil_r. simpl.
      split; [done|]. split; [lia|]. split; [lia|]. split; [done|].
      split; [by right|done].
    + destruct Hinv as (Hne & _ & ->). exists []. rewrite app_nil_r. simpl.
      split; [done|]. split; [lia|]. split; [lia|]. split; [done|].
      split; [done|]. intros e' _. eexists. split; [done|]. done.
Qed.

(** X6: when [_schedule] returns fewer hosts than [num_instances], the
    filter chain returned an empty list in the round whose index is the
    number of hosts selected, and this was the last round entered. *)
Theorem shortfall_means_filter_empty conf w spec_obj selected w' :
  _schedule conf w spec_obj = (Returns selected, w') ->
  Z.of_nat (length selected) < num_instances spec_obj ->
  filtered_lists conf w spec_obj !! length selected = Some []
  /\ length (filtered_lists conf w spec_obj) = S (length selected).
Proof.
  rewrite _schedule_run. simpl. unfold run_schedule, filtered_lists.
  destruct (schedule_loop_trace conf spec_obj
              (range (num_instances spec_obj)) (initial_state w spec_obj))
    as (new & Hsel & _ & _ & _ & Hn & _).
  simpl in Hsel.
  destruct (schedule_loop _ _ _ _).1; [done|].
  intros [= <- _] Hlt. rewrite Hsel in *.
  destruct (Hn eq_refl) as [Hl|Hl]; [|done].
  rewrite length_range in Hl. lia.
Qed.

(** X7: the filtered lists of a run are at most [num_instances]; every
    round that selected a host had a non-empty filtered list; there is at
    most one more filtered list than selected hosts, and it is non-empty
    exactly when the run ended in an exception. *)
Theorem filtered_lists_shape conf w spec_obj :
  let out := run_schedule conf w spec_obj in
  let lists := filtered_lists conf w spec_obj in
  let n := length (selected_hosts out.2) in
  (length lists <= Z.to_nat (num_instances spec_obj))%nat
  /\ (n <= length lists <= S n)%nat
  /\ (forall k, (k < n)%nat -> exists a, lists !! k = Some a /\ a <> [])
  /\ (forall a, lists !! n = Some a -> (a <> [] <-> out.1 <> None)).
Proof.
  intros out lists n. subst out lists n. unfold run_schedule, filtered_lists.
  destruct (schedule_loop_trace conf spec_obj
              (range (num_instances spec_obj)) (initial_state w spec_obj))
    as (new & Hsel & Hlen & Hb & Hk & Hn & He).
  simpl in Hsel. rewrite Hsel. rewrite length_range in Hlen.
  split; [done|]. split; [done|]. split.
  - intros k Hlt. destruct (lookup_lt_is_Some_2 new k Hlt) as [x Hx].
    destruct (Hk k x Hx) as (a & Ha & Hne & _). eauto.
  - intros a Ha.
    destruct (schedule_loop _ _ _ _).1 as [e|].
    + destruct (He e eq_refl) as (a' & Ha' & Hne & _).
      rewrite Ha in Ha'. injection Ha' as <-. done.
    + destruct (Hn eq_refl) as [Hl|[Hl _]].
      * apply lookup_lt_Some in Ha. rewrite length_range in Hl. lia.
      * rewrite Ha in Hl. injection Hl as ->. done.
Qed.

Lemma after_rounds_selected conf spec_obj nums s s' :
  after_rounds conf spec_obj nums s = Some s' ->
  length (selected_hosts s') = (length (selected_hosts s) + length nums)%nat.
Proof.
  revert s. induction nums as [|num rest IH]; intros s; simpl.
  - intros [= <-]. lia.
  - destruct (schedule_round conf spec_obj num s) as [s1| |] eqn:Hr; [|done..].
    intros Hs'. apply IH in Hs'.
    apply schedule_round_continue in Hr as (x & Hsel & _).
    rewrite Hsel, length_app in Hs'. simpl in Hs'. lia.
Qed.

Lemma range_middle n pre num rest :
  range n = pre ++ num :: rest ->
  num = Z.of_nat (length pre) /\ (length pre < Z.to_nat n)%nat.
Proof.
  intros Hr.
  assert (range n !! length pre = Some num) as Hl
    by (rewrite Hr; apply list_lookup_middle; done).
  unfold range in Hl. rewrite list_lookup_fmap in Hl.
  destruct (seq 0 (Z.to_nat n) !! length pre) as [i|] eqn:Hi; [|done].
  apply lookup_seq in Hi as [-> Hlt]. injection Hl as <-. done.
Qed.

Lemma filtered_per_round_at conf spec_obj pre num rest s0 s :
  after_rounds conf spec_obj pre s0 = Some s ->
  filtered_per_round conf spec_obj (pre ++ num :: rest) s0 !! length pre
  = Some (hosts (step_state (schedule_round conf spec_obj num s))).
Proof.
  revert s0. induction pre as [|num0 pre IH]; intros s0; simpl.
  - intros [= ->]. by destruct (schedule_round conf spec_obj num s).
  - destruct (schedule_round conf spec_obj num0 s0); [apply IH|done..].
Qed.

(** X8: in the round that follows rounds that ran to their end, the
    filter chain is called with, as index, the number of hosts selected so
    far: the filtered list of that round is what [get_filtered_hosts]
    returns for the host list of the round before and this index, which
    lies in [0 .. num_instances - 1]. *)
Theorem round_index_counts_selected conf w spec_obj pre num rest s :
  range (num_instances spec_obj) = pre ++ num :: rest ->
  after_rounds conf spec_obj pre (initial_state w spec_obj) = Some s ->
  let index := Z.of_nat (length (selected_hosts s)) in
  num = index
  /\ 0 <= index < num_instances spec_obj
  /\ hosts (step_state (schedule_round conf spec_obj num s))
     = get_filtered_hosts (ls_heap s) (hosts s) (filter_properties s) index
  /\ filtered_lists conf w spec_obj !! length (selected_hosts s)
     = Some
         (get_filtered_hosts (ls_heap s) (hosts s) (filter_properties s)
            index).
Proof.
  intros Hr Hs index. subst index.
  pose proof (filtered_per_round_at conf spec_obj pre num rest _ _ Hs) as Hat.
  unfold filtered_lists. rewrite Hr.
  apply range_middle in Hr as [-> Hlt].
  apply after_rounds_selected in Hs. simpl in Hs. rewrite Hs.
  rewrite schedule_round_hosts in Hat.
  split; [done|]. split; [lia|].
  split; [apply schedule_round_hosts|exact Hat].
Qed.

Lemma filtered_per_round_narrow conf spec_obj nums s i j a b :
  filter_narrows -> (i <= j)%nat ->
  filtered_per_round conf spec_obj nums s !! i = Some a ->
  filtered_per_round conf spec_obj nums s !! j = Some b ->
  b ⊆+ a.
Proof.
  intros Hnarrow Hle Ha. revert b.
  induction Hle as [|j Hle IH]; intros b Hb.
  - rewrite Ha in Hb. by injection Hb as <-.
  - destruct (lookup_lt_is_Some_2
                (filtered_per_round conf spec_obj nums s) j) as [c Hc].
    { apply lookup_lt_Some in Hb. lia. }
    destruct (filtered_per_round_adjacent _ _ _ _ _ _ _ Hc Hb)
      as (h & fp & index & ->).
    etrans; [apply Hnarrow|]. by apply IH.
Qed.

(** X9: when the filter chain returns a part of its input and the weigher
    chain returns weighed hosts of its input, the host selected in a round
    belongs to the filtered list of that round and of every earlier round,
    and to the host list of the host manager: a host the filter chain has
    dropped is not selected later in the call. *)
Theorem selected_hosts_passed_the_filters conf w spec_obj :
  filter_narrows -> weigher_sound ->
  forall j x,
    selected_hosts (run_schedule conf w spec_obj).2 !! j = Some x ->
    obj x ∈ get_all_host_states (heap w)
    /\ forall i a,
         (i <= j)%nat ->
         filtered_lists conf w spec_obj !! i = Some a -> obj x ∈ a.
Proof.
  intros Hnarrow Hsound j x. unfold run_schedule, filtered_lists.
  destruct (schedule_loop_trace conf spec_obj
              (range (num_instances spec_obj)) (initial_state w spec_obj))
    as (new & Hsel & _ & _ & Hk & _).
  simpl in Hsel. rewrite Hsel. intros Hx.
  destruct (Hk j x Hx) as (b & Hb & _ & h & fp & Hin).
  apply Hsound in Hin.
  assert (forall i a,
             (i <= j)%nat ->
             filtered_per_round conf spec_obj (range (num_instances spec_obj))
               (initial_state w spec_obj) !! i = Some a ->
             obj x ∈ a) as Hall.
  { intros i a Hle Ha. eapply elem_of_submseteq; [exact Hin|].
    by eapply filtered_per_round_narrow. }
  split; [|exact Hall].
  destruct (lookup_lt_is_Some_2
              (filtered_per_round conf spec_obj
                 (range (num_instances spec_obj)) (initial_state w spec_obj))
              0%nat) as [a0 Ha0].
  { apply lookup_lt_Some in Hb. lia. }
  pose proof (Hall 0%nat a0 (Nat.le_0_l j) Ha0) as Hx0.
  apply filtered_per_round_head in Ha0 as [num ->].
  eapply elem_of_submseteq; [exact Hx0|]. apply Hnarrow.
Qed.

(** ** The filter properties across the rounds *)

Lemma schedule_loop_filter_properties conf spec_obj nums s
  (fp0 : FilterProperties) :
  fp_request_spec (filter_properties s) = fp_request_spec fp0
  /\ group_updated (filter_properties s) = group_updated fp0
  /\ group_hosts fp0 ⊆ group_hosts (filter_properties s)
  /\ (group_updated fp0 = false -> filter_properties s = fp0) ->
  let s' := (schedule_loop conf spec_obj nums s).2 in
  fp_request_spec (filter_properties s') = fp_request_spec fp0
  /\ group_updated (filter_properties s') = group_updated fp0
  /\ group_hosts fp0 ⊆ group_hosts (filter_properties s')
  /\ (group_updated fp0 = false -> filter_properties s' = fp0).
Proof.
  intros Hs s'. subst s'. revert nums s Hs.
  apply (schedule_loop_invariant
           (fun s =>
              fp_request_spec (filter_properties s) = fp_request_spec fp0
              /\ group_updated (filter_properties s) = group_updated fp0
              /\ group_hosts fp0 ⊆ group_hosts (filter_properties s)
              /\ (group_updated fp0 = false -> filter_properties s = fp0))).
  intros num s (Hspec & Hgu & Hsub & Hsame).
  pose proof (schedule_round_inv conf spec_obj num s) as Hinv.
  destruct (schedule_round conf spec_obj num s) as [s'|s'|e s']; simpl in *.
  - destruct Hinv as (x & _ & _ & ->). simpl. unfold add_group_host.
    destruct (group_updated (filter_properties s)) eqn:Hb; simpl.
    + split; [done|]. split; [by rewrite <- Hgu|]. split; [set_solver|].
      intros Hf. congruence.
    + split; [done|]. split; [congruence|]. split; done.
  - destruct Hinv as (_ & ->). auto.
  - destruct Hinv as (_ & _ & ->). auto.
Qed.

Lemma schedule_loop_group_hosts conf spec_obj nums s (h0 : Heap)
  (gh0 : gset string) :
  (forall st, host (consume_from_request st spec_obj) = host st) ->
  group_updated (filter_properties s) = true ->
  (forall r, host (ls_heap s r) = host (h0 r))
  /\ group_hosts (filter_properties s)
     = gh0 ∪ selected_names h0 (selected_hosts s) ->
  let s' := (schedule_loop conf spec_obj nums s).2 in
  group_hosts (filter_properties s')
  = gh0 ∪ selected_names h0 (selected_hosts s').
Proof.
  intros Hkeep Hgu Hs s'. subst s'.
  cut (group_updated
         (filter_properties (schedule_loop conf spec_obj nums s).2) = true
       /\ (forall r,
              host (ls_heap (schedule_loop conf spec_obj nums s).2 r)
              = host (h0 r))
       /\ group_hosts (filter_properties (schedule_loop conf spec_obj nums s).2)
          = gh0
            ∪ selected_names h0
                (selected_hosts (schedule_loop conf spec_obj nums s).2)).
  { by intros (_ & _ & H). }
  apply (schedule_loop_invariant
           (fun s =>
              group_updated (filter_properties s) = true
              /\ (forall r, host (ls_heap s r) = host (h0 r))
              /\ group_hosts (filter_properties s)
                 = gh0 ∪ selected_names h0 (selected_hosts s)));
    [|by destruct Hs].
  clear s Hgu Hs. intros num s (Hgu & Hhost & Hgh).
  pose proof (schedule_round_inv conf spec_obj num s) as Hinv.
  destruct (schedule_round conf spec_obj num s) as [s'|s'|e s']; simpl in *.
  - destruct Hinv as (x & _ & _ & ->). simpl.
    assert (forall r,
               host (heap_alter (fun hs => consume_from_request hs spec_obj)
                       (obj x) (ls_heap s) r) = host (h0 r)) as Hhost'.
    { intros r. unfold heap_alter. destruct (decide (r = obj x)); [|done].
      by rewrite Hkeep. }
    unfold add_group_host. rewrite Hgu. simpl.
    split; [done|]. split; [done|].
    rewrite Hhost', Hgh. unfold selected_names.
    rewrite fmap_app, list_to_set_app_L. simpl.
    rewrite (right_id_L ∅ (∪)), (comm_L (∪) {[ _ ]}).
    by rewrite (assoc_L (∪)).
  - destruct Hinv as (_ & ->). done.
  - destruct Hinv as (_ & _ & ->). done.
Qed.

(** X10: the loop never changes the request and the [group_updated] flag
    of the filter properties, and never removes a host from [group_hosts];
    for a request without instance group the filter properties stay as
    they were built; for a request with one, when [consume_from_request]
    keeps the [host] attribute, [group_hosts] ends as the hosts of the
    group together with the [host] of every selected host. *)
Theorem group_hosts_follow_selection conf w spec_obj :
  let s := (run_schedule conf w spec_obj).2 in
  let fp0 := to_legacy_filter_properties_dict spec_obj in
  fp_request_spec (filter_properties s) = spec_obj
  /\ group_updated (filter_properties s) = group_updated fp0
  /\ group_hosts fp0 ⊆ group_hosts (filter_properties s)
  /\ (instance_group spec_obj = None -> filter_properties s = fp0)
  /\ (forall hs,
        instance_group spec_obj = Some hs ->
        (forall st, host (consume_from_request st spec_obj) = host st) ->
        group_hosts (filter_properties s)
        = hs ∪ selected_names (heap w) (selected_hosts s)).
Proof.
  intros s fp0. subst s. unfold run_schedule.
  destruct (schedule_loop_filter_properties conf spec_obj
              (range (num_instances spec_obj)) (initial_state w spec_obj) fp0)
    as (Hspec & Hgu & Hsub & Hsame); [done|].
  assert (fp_request_spec fp0 = spec_obj) as Hfp0
    by (subst fp0; unfold to_legacy_filter_properties_dict;
        by destruct (instance_group spec_obj)).
  split; [by rewrite Hspec|]. split; [done|]. split; [done|]. split.
  - intros Hnone. apply Hsame. subst fp0.
    unfold to_legacy_filter_properties_dict. by rewrite Hnone.
  - intros hs Hsome Hkeep.
    apply (schedule_loop_group_hosts conf spec_obj _ _ (heap w) hs Hkeep);
      simpl; unfold to_legacy_filter_properties_dict; rewrite Hsome; simpl;
      [done|].
    split; [done|]. unfold selected_names. simpl.
    by rewrite (right_id_L ∅ (∪)).
Qed.

(** ** The exception of the pick *)

(** X11: when [select_destinations] raises [IndexError], the host states
    are left as the rounds before the failing pick made them: every host
    selected so far has been consumed from, nothing is given back, and no
    [updated] marker is cleared. *)
Theorem index_error_leaves_consumption conf w spec_obj w2 :
  select_destinations conf w spec_obj = (Raises IndexError, w2) ->
  let s :=
    (run_schedule conf
       (notify "scheduler.select_destinations.start" spec_obj w)
       spec_obj).2 in
  forall r,
    heap w2 r
    = Nat.iter (times_selected r (selected_hosts s))
        (fun hs => consume_from_request hs spec_obj) (heap w r).
Proof.
  intros Hsel s r.
  pose proof (schedule_loop_consumed conf spec_obj
                (range (num_instances spec_obj))
                (initial_state
                   (notify "scheduler.select_destinations.start" spec_obj w)
                   spec_obj) (heap w) (fun _ => eq_refl) r) as Hr.
  fold (run_schedule conf
          (notify "scheduler.select_destinations.start" spec_obj w) spec_obj)
    in Hr.
  fold s in Hr. rewrite <- Hr. clear Hr.
  revert Hsel. unfold select_destinations. rewrite _schedule_run. simpl.
  fold s. destruct (run_schedule conf _ spec_obj).1.
  - by intros [= _ <-].
  - by destruct (Z.of_nat _ <? num_instances spec_obj).
Qed.

End Coverage.

(** ** The further properties on the fleet *)

Lemma capacity_weigher_sound : weigher_sound (HM := capacity_manager).
Proof.
  intros h l fp x. simpl. intros Hx.
  apply list_elem_of_fmap in Hx as (r & -> & Hr). done.
Qed.

(** A batch of five on the fleet: the first host was selected once and
    consumed from once. *)
Lemma consumed_once_per_selection_witness :
  let run :=
    _schedule (RS := lcg) (HM := capacity_manager) (CO := debit) (mkConfig 1)
      (fleet_world 7) (batch 5) in
  let selected :=
    [mkWeighedHost 0%nat 0; mkWeighedHost 1%nat 0; mkWeighedHost 2%nat 0] in
  run = (Returns selected, run.2)
  /\ heap run.2 0%nat
     = Nat.iter (times_selected 0%nat selected)
         (fun hs => consume_from_request (Consumption := debit) hs (batch 5))
         (heap (fleet_world 7) 0%nat).
Proof.
  intros run selected.
  assert (run = (Returns selected, run.2)) as Hrun
    by (apply injective_projections; reflexivity).
  split; [exact Hrun|].
  exact (proj2 (proj2 (consumed_once_per_selection
                         (RS := lcg) (HM := capacity_manager) (CO := debit)
                         (mkConfig 1) (fleet_world 7) (batch 5)))
           selected run.2 0%nat Hrun).
Defined.

(** A batch of five on the three hosts of the fleet fails with the fixed
    message and keeps what the three rounds consumed. *)
Lemma no_valid_host_keeps_consumption_witness :
  let out :=
    select_destinations (RS := lcg) (HM := capacity_manager) (CO := debit)
      (mkConfig 1) (fleet_world 7) (batch 5) in
  let reason := "There are not enough hosts available." in
  out = (Raises (NoValidHost reason), out.2)
  /\ reason = "There are not enough hosts available."
  /\ exists selected w1,
       _schedule (RS := lcg) (HM := capacity_manager) (CO := debit)
         (mkConfig 1)
         (notify "scheduler.select_destinations.start" (batch 5)
            (fleet_world 7)) (batch 5)
       = (Returns selected, w1)
       /\ Z.of_nat (length selected) < num_instances (batch 5)
       /\ (forall r,
             heap out.2 r
             = if decide (r ∈ obj <$> selected)
               then set_updated None (heap w1 r) else heap w1 r)
       /\ (forall r, capacity (heap out.2 r) = capacity (heap w1 r))
       /\ rng out.2 = rng w1.
Proof.
  intros out reason.
  assert (out = (Raises (NoValidHost reason), out.2)) as Hout
    by (apply injective_projections; reflexivity).
  split; [exact Hout|].
  exact (no_valid_host_keeps_consumption
           (RS := lcg) (HM := capacity_manager) (CO := debit)
           (mkConfig 1) (fleet_world 7) (batch 5) reason out.2 Hout).
Defined.

(** The debit of a flavor of one unit never raises the capacity. *)
Lemma capacity_never_increases_witness :
  (forall hs,
      capacity (consume_from_request (Consumption := debit) hs (batch 5))
      <= capacity hs)
  /\ forall r,
       capacity
         (heap (select_destinations (RS := lcg) (HM := capacity_manager)
                  (CO := debit) (mkConfig 1) (fleet_world 7) (batch 5)).2 r)
       <= capacity (heap (fleet_world 7) r).
Proof.
  assert (forall hs,
             capacity (consume_from_request (Consumption := debit) hs (batch 5))
             <= capacity hs) as Hf
    by (intros hs; simpl; lia).
  split; [exact Hf|].
  exact (capacity_never_increases
           (RS := lcg) (HM := capacity_manager) (CO := debit)
           (mkConfig 1) (fleet_world 7) (batch 5) Hf).
Defined.

(** Three weighed hosts and a configured size of 2: the draw is below 2
    and the pick is the host at the drawn index. *)
Lemma pick_is_the_drawn_index_witness :
  let wh :=
    [mkWeighedHost 0%nat 0; mkWeighedHost 1%nat 0; mkWeighedHost 2%nat 0] in
  wh <> []
  /\ exists x,
       wh !! (randbelow (RandomSource := lcg) 7%nat 2).1 = Some x
       /\ choose_host (RS := lcg) (mkConfig 2) 7%nat wh
          = (Returns x, (randbelow (RandomSource := lcg) 7%nat 2).2).
Proof.
  intros wh. assert (wh <> []) as Hne by done.
  split; [exact Hne|].
  exact (proj2 (proj2 (pick_is_the_drawn_index (RS := lcg)
                         (mkConfig 2) 7%nat wh Hne))).
Defined.

(** A batch of five on the fleet: three hosts are returned and the fourth
    filtered list is the empty one. *)
Lemma shortfall_means_filter_empty_witness :
  let run :=
    _schedule (RS := lcg) (HM := capacity_manager) (CO := debit) (mkConfig 1)
      (fleet_world 7) (batch 5) in
  let selected :=
    [mkWeighedHost 0%nat 0; mkWeighedHost 1%nat 0; mkWeighedHost 2%nat 0] in
  let lists :=
    filtered_lists (RS := lcg) (HM := capacity_manager) (CO := debit)
      (mkConfig 1) (fleet_world 7) (batch 5) in
  run = (Returns selected, run.2)
  /\ Z.of_nat (length selected) < num_instances (batch 5)
  /\ lists !! length selected = Some []
  /\ length lists = S (length selected).
Proof.
  intros run selected lists.
  assert (run = (Returns selected, run.2)) as Hrun
    by (apply injective_projections; reflexivity).
  assert (Z.of_nat (length selected) < num_instances (batch 5)) as Hlt
    by (simpl; lia).
  split; [exact Hrun|]. split; [exact Hlt|].
  exact (shortfall_means_filter_empty
           (RS := lcg) (HM := capacity_manager) (CO := debit)
           (mkConfig 1) (fleet_world 7) (batch 5) selected run.2 Hrun Hlt).
Defined.

(** A batch of five on the fleet: the first round, which selected a host,
    had a non-empty filtered list. *)
Lemma filtered_lists_shape_witness :
  (0 < length
         (selected_hosts
            (run_schedule (RS := lcg) (HM := capacity_manager) (CO := debit)
               (mkConfig 1) (fleet_world 7) (batch 5)).2))%nat
  /\ exists a,
       filtered_lists (RS := lcg) (HM := capacity_manager) (CO := debit)
         (mkConfig 1) (fleet_world 7) (batch 5) !! 0%nat = Some a
       /\ a <> [].
Proof.
  assert (0 < length
                (selected_hosts
                   (run_schedule (RS := lcg) (HM := capacity_manager)
                      (CO := debit) (mkConfig 1) (fleet_world 7)
                      (batch 5)).2))%nat as Hlt
    by (simpl; lia).
  split; [exact Hlt|].
  exact (proj1 (proj2 (proj2 (filtered_lists_shape
                                (RS := lcg) (HM := capacity_manager)
                                (CO := debit) (mkConfig 1) (fleet_world 7)
                                (batch 5))))
           0%nat Hlt).
Defined.

(** A batch of five on the fleet: the round after three completed rounds
    calls the filter chain with index 3, and its result is the fourth
    filtered list of the run. *)
Lemma round_index_counts_selected_witness :
  exists s,
    range (num_instances (batch 5)) = [0; 1; 2] ++ 3 :: [4]
    /\ after_rounds (RS := lcg) (HM := capacity_manager) (CO := debit)
         (mkConfig 1) (batch 5) [0; 1; 2]
         (initial_state (HM := capacity_manager) (fleet_world 7) (batch 5))
       = Some s
    /\ 3 = Z.of_nat (length (selected_hosts s))
    /\ filtered_lists (RS := lcg) (HM := capacity_manager) (CO := debit)
         (mkConfig 1) (fleet_world 7) (batch 5) !! length (selected_hosts s)
       = Some
           (get_filtered_hosts (HostManager := capacity_manager) (ls_heap s)
              (hosts s) (filter_properties s)
              (Z.of_nat (length (selected_hosts s)))).
Proof.
  eexists. split; [reflexivity|]. split; [reflexivity|].
  pose proof (round_index_counts_selected
                (RS := lcg) (HM := capacity_manager) (CO := debit)
                (mkConfig 1) (fleet_world 7) (batch 5) [0; 1; 2] 3 [4] _
                eq_refl eq_refl) as Hthm.
  split; [exact (proj1 Hthm)|exact (proj2 (proj2 (proj2 Hthm)))].
Defined.

(** A batch of five on the fleet: the host selected in the second round is
    one of the fleet and passed the filters of the first round. *)
Lemma selected_hosts_passed_the_filters_witness :
  let x := mkWeighedHost 1%nat 0 in
  filter_narrows (HM := capacity_manager)
  /\ weigher_sound (HM := capacity_manager)
  /\ selected_hosts
       (run_schedule (RS := lcg) (HM := capacity_manager) (CO := debit)
          (mkConfig 1) (fleet_world 7) (batch 5)).2 !! 1%nat = Some x
  /\ obj x ∈ get_all_host_states (HostManager := capacity_manager)
               (heap (fleet_world 7)).
Proof.
  intros x.
  assert (selected_hosts
            (run_schedule (RS := lcg) (HM := capacity_manager) (CO := debit)
               (mkConfig 1) (fleet_world 7) (batch 5)).2 !! 1%nat = Some x)
    as Hx by reflexivity.
  split; [exact capacity_filter_narrows|].
  split; [exact capacity_weigher_sound|]. split; [exact Hx|].
  exact (proj1 (selected_hosts_passed_the_filters
                  (RS := lcg) (HM := capacity_manager) (CO := debit)
                  (mkConfig 1) (fleet_world 7) (batch 5)
                  capacity_filter_narrows capacity_weigher_sound
                  1%nat x Hx)).
Defined.

(** A batch of two for the instance group: the hosts of the group end as
    [host9] and the hosts of the two selected hosts. *)
Lemma group_hosts_follow_selection_witness :
  let s :=
    (run_schedule (RS := lcg) (HM := all_pass_manager) (CO := debit)
       (mkConfig 1) (fleet_world 7) (group_batch 2)).2 in
  instance_group (group_batch 2) = Some {[ "host9" ]}
  /\ (forall st,
         host (consume_from_request (Consumption := debit) st (group_batch 2))
         = host st)
  /\ group_hosts (filter_properties s)
     = {[ "host9" ]}
       ∪ selected_names (heap (fleet_world 7)) (selected_hosts s).
Proof.
  intros s.
  assert (forall st,
             host (consume_from_request (Consumption := debit) st
                     (group_batch 2)) = host st) as Hkeep
    by (intros st; reflexivity).
  split; [reflexivity|]. split; [exact Hkeep|].
  exact (proj2 (proj2 (proj2 (proj2
           (group_hosts_follow_selection
              (RS := lcg) (HM := all_pass_manager) (CO := debit)
              (mkConfig 1) (fleet_world 7) (group_batch 2)))))
           {[ "host9" ]} eq_refl Hkeep).
Defined.

(** A batch of two with a weigher that returns no host in the second
    round: the call raises [IndexError] and the first host keeps what the
    first round consumed. *)
Lemma index_error_leaves_consumption_witness :
  let out :=
    select_destinations (RS := lcg) (HM := exhausted_weigher_manager)
      (CO := debit) (mkConfig 1) (fleet_world 7) (batch 2) in
  let s :=
    (run_schedule (RS := lcg) (HM := exhausted_weigher_manager) (CO := debit)
       (mkConfig 1)
       (notify "scheduler.select_destinations.start" (batch 2)
          (fleet_world 7)) (batch 2)).2 in
  out = (Raises IndexError, out.2)
  /\ selected_hosts s = [mkWeighedHost 0%nat 0]
  /\ forall r,
       heap out.2 r
       = Nat.iter (times_selected r (selected_hosts s))
           (fun hs => consume_from_request (Consumption := debit) hs (batch 2))
           (heap (fleet_world 7) r).
Proof.
  intros out s.
  assert (out = (Raises IndexError, out.2)) as Hout
    by (apply injective_projections; reflexivity).
  split; [exact Hout|]. split; [reflexivity|].
  exact (index_error_leaves_consumption
           (RS := lcg) (HM := exhausted_weigher_manager) (CO := debit)
           (mkConfig 1) (fleet_world 7) (batch 2) out.2 Hout).
Defined.
